(** * Brainchild front-end helpers (static/js/main.js): model and properties

    The JavaScript module is embedded function by function.  Strings are
    sequences of UTF-16 code units, DOM elements are records holding the
    properties and attributes the code reads or writes, timers and click
    listeners are explicit state machines. *)

From Stdlib Require Import ZArith NArith QArith Qround Qabs Lia Lqa Ascii String.
From stdpp Require Import base option list gmap strings.

Local Open Scope N_scope.

(** ** Strings *)

(** A JavaScript string: its UTF-16 code units. *)
Abbreviation jsstring := (list N).

(** The code units of an ASCII literal of the source. *)
Definition lit (s : string) : jsstring :=
  map N_of_ascii (String.list_ascii_of_string s).

Definition ch (a : ascii) : N := N_of_ascii a.

(** Code units outside ASCII that occur in the messages of the source. *)
Definition a_acute : N := 225.  (* U+00E1 *)
Definition a_tilde : N := 227.  (* U+00E3 *)
Definition e_acute : N := 233.  (* U+00E9 *)
Definition i_acute : N := 237.  (* U+00ED *)
Definition o_acute : N := 243.  (* U+00F3 *)
Definition u_acute : N := 250.  (* U+00FA *)

Definition jsstring_eqb (a b : jsstring) : bool := bool_decide (a = b).

(** A string is truthy when it is not empty. *)
Definition truthy (s : jsstring) : bool :=
  match s with [] => false | _ :: _ => true end.

(** ** Character classes *)

Definition cls := N -> bool.

Definition is_code (n : N) : cls := fun c => c =? n.
Definition is_char (a : ascii) : cls := is_code (ch a).
Definition in_range (lo hi : ascii) : cls := fun c => (ch lo <=? c) && (c <=? ch hi).
Definition cls_or (p q : cls) : cls := fun c => p c || q c.
Definition cls_not (p : cls) : cls := fun c => negb (p c).

(** WhiteSpace and LineTerminator of ECMAScript: what [\s] matches and what
    [String.prototype.trim] strips. *)
Definition is_ws : cls := fun c =>
  ((9 <=? c) && (c <=? 13)) || (c =? 32) || (c =? 160) || (c =? 5760)
  || ((8192 <=? c) && (c <=? 8202)) || (c =? 8232) || (c =? 8233)
  || (c =? 8239) || (c =? 8287) || (c =? 12288) || (c =? 65279).

Fixpoint trimStart (s : jsstring) : jsstring :=
  match s with
  | [] => []
  | c :: s' => if is_ws c then trimStart s' else s
  end.

Definition trimEnd (s : jsstring) : jsstring := rev (trimStart (rev s)).

Definition trim (s : jsstring) : jsstring := trimEnd (trimStart s).

(** ** Regular expressions

    Every pattern of the source is a sequence of character classes, each
    taken once or one or more times ([+]), optionally anchored by [^] and [$].
    [test] answers whether some match exists, by backtracking. *)

Inductive quant := Once | Plus.

Record regex := Regex {
  anchor_start : bool;
  atoms : list (cls * quant);
  anchor_end : bool
}.

Fixpoint match_here (to_end : bool) (l : list (cls * quant)) : jsstring -> bool :=
  match l with
  | [] => fun s => if to_end then negb (truthy s) else true
  | (p, Once) :: l' => fun s =>
      match s with
      | [] => false
      | c :: s' => p c && match_here to_end l' s'
      end
  | (p, Plus) :: l' =>
      fix more (s : jsstring) : bool :=
        match s with
        | [] => false
        | c :: s' => p c && (more s' || match_here to_end l' s')
        end
  end.

Fixpoint match_anywhere (to_end : bool) (l : list (cls * quant)) (s : jsstring) : bool :=
  match_here to_end l s ||
  match s with
  | [] => false
  | _ :: s' => match_anywhere to_end l s'
  end.

(** [RegExp.prototype.test] *)
Definition test (r : regex) (s : jsstring) : bool :=
  if anchor_start r then match_here (anchor_end r) (atoms r) s
  else match_anywhere (anchor_end r) (atoms r) s.

(** [text.replace(/[...]/g, f)] for a pattern that is one character class:
    every code unit of the class is replaced by [f] of the matched text. *)
Fixpoint replace_all (p : cls) (f : jsstring -> jsstring) (text : jsstring) : jsstring :=
  match text with
  | [] => []
  | c :: text' =>
      (if p c then f [c] else [c]) ++ replace_all p f text'
  end.

(** Reading a property of an object literal: [None] is [undefined]. *)
Fixpoint prop_get {V} (o : list (jsstring * V)) (k : jsstring) : option V :=
  match o with
  | [] => None
  | (k', v) :: o' => if jsstring_eqb k k' then Some v else prop_get o' k
  end.

(** ** Brainchild.config *)

Module config.
Definition animationDuration : Z := 300.
Definition debounceDelay : Z := 300.
Definition maxFileSize : N := 16 * 1024 * 1024.
Definition allowedImageTypes : list jsstring :=
  [lit "image/jpeg"; lit "image/jpg"; lit "image/png"; lit "image/gif"; lit "image/webp"].
End config.

(** ** Brainchild.utils.escapeHtml *)

(** The code unit of the double quote, U+0022. *)
Definition dquote : N := 34.

(** The class of the pattern: ampersand, less-than, greater-than, double
    quote, apostrophe. *)
Definition html_special : cls :=
  cls_or (is_char "&") (cls_or (is_char "<") (cls_or (is_char ">")
    (cls_or (is_code dquote) (is_char "'")))).

Definition escape_map : list (jsstring * jsstring) :=
  [ ([ch "&"], lit "&amp;");
    ([ch "<"], lit "&lt;");
    ([ch ">"], lit "&gt;");
    ([dquote], lit "&quot;");
    ([ch "'"], lit "&#039;") ].

(** A replacer that returns [undefined] contributes the text "undefined". *)
Definition escapeHtml (text : jsstring) : jsstring :=
  replace_all html_special
    (fun m => default (lit "undefined") (prop_get escape_map m)) text.

(** ** Validation results: the object literals [{ valid, message }] *)

Record vresult := VResult { valid : bool; message : jsstring }.

(** ** Brainchild.forms.customValidations *)

Module customValidations.

Definition word_char : cls :=
  cls_or (in_range "a" "z") (cls_or (in_range "A" "Z")
    (cls_or (in_range "0" "9") (is_char "_"))).
Definition letter : cls := cls_or (in_range "a" "z") (in_range "A" "Z").
Definition digit : cls := in_range "0" "9".

(** [/^[a-zA-Z0-9_]+$/] *)
Definition username_regex : regex := Regex true [(word_char, Plus)] true.
(** [/[a-zA-Z]/] and [/[0-9]/] *)
Definition letter_regex : regex := Regex false [(letter, Once)] false.
Definition digit_regex : regex := Regex false [(digit, Once)] false.

Definition msg_username : jsstring :=
  lit "Username deve conter apenas letras, n" ++ [u_acute] ++ lit "meros e underscore".
Definition msg_short : jsstring := lit "Senha deve ter pelo menos 6 caracteres".
Definition msg_letter : jsstring := lit "Senha deve conter pelo menos uma letra".
Definition msg_digit : jsstring :=
  lit "Senha deve conter pelo menos um n" ++ [u_acute] ++ lit "mero".

Definition username (value : jsstring) : vresult :=
  VResult (test username_regex value) msg_username.

Definition password (value : jsstring) : vresult :=
  if (N.of_nat (length value) <? 6) then VResult false msg_short
  else if negb (test letter_regex value) then VResult false msg_letter
  else if negb (test digit_regex value) then VResult false msg_digit
  else VResult true [].

(** The own properties of the registry object. *)
Definition registry : list (jsstring * (jsstring -> vresult)) :=
  [ (lit "username", username); (lit "password", password) ].

(** What [customValidations[kind]] finds, by what the call
    [customValidation(value)] on a string then does. *)
Inductive member :=
  | Validator (f : jsstring -> vresult)   (* a function of the registry *)
  | ReturnsOther       (* returns a value with no [valid] and no [message] *)
  | ThrowsTypeError.   (* the call throws a TypeError *)

(** The registry is an ordinary object, so a name that it does not hold is
    looked up in [Object.prototype], here as the language defines it.  The
    call passes no receiver: [Object(value)] is a String object,
    [toString] gives the text of [undefined], [isPrototypeOf] answers
    [false] for a string; the other functions need a receiver and throw, and
    [__proto__] reads as an object, which cannot be called. *)
Definition object_prototype : list (jsstring * member) :=
  [ (lit "constructor", ReturnsOther);
    (lit "toString", ReturnsOther);
    (lit "isPrototypeOf", ReturnsOther);
    (lit "toLocaleString", ThrowsTypeError);
    (lit "valueOf", ThrowsTypeError);
    (lit "hasOwnProperty", ThrowsTypeError);
    (lit "propertyIsEnumerable", ThrowsTypeError);
    (lit "__proto__", ThrowsTypeError);
    (lit "__defineGetter__", ThrowsTypeError);
    (lit "__defineSetter__", ThrowsTypeError);
    (lit "__lookupGetter__", ThrowsTypeError);
    (lit "__lookupSetter__", ThrowsTypeError) ].

(** [customValidations[kind]]; [None] is [undefined]. *)
Definition lookup (kind : jsstring) : option member :=
  match prop_get registry kind with
  | Some f => Some (Validator f)
  | None => prop_get object_prototype kind
  end.

End customValidations.

(** ** Exceptions *)

Inductive exn := RangeError | TypeError.

Inductive completion (A : Type) : Type :=
  | Normal (a : A)
  | Throw (e : exn).
Arguments Normal {A} a.
Arguments Throw {A} e.

Definition cbind {A B} (c : completion A) (k : A -> completion B) : completion B :=
  match c with
  | Normal a => k a
  | Throw e => Throw e
  end.

Notation "x <-- c ;; k" := (cbind c (fun x => k))
  (at level 100, c at next level, right associativity).

(** ** Numbers and their decimal text

    The numbers of [formatBytes] are taken as exact rationals.  A byte count
    is an integer, a division by a power of 1024 is exact in binary floating
    point, and a decimal of at most 15 significant digits survives the
    passage through a double unchanged. *)

Definition is_digit : cls := in_range "0" "9".
Definition digit_char (d : N) : N := 48 + d.

(** The [k] low-order decimal digits of [n], most significant first. *)
Fixpoint digits_of (k : nat) (n : N) : jsstring :=
  match k with
  | O => []
  | S k' => digits_of k' (n / 10) ++ [digit_char (n mod 10)]
  end.

Fixpoint strip_leading_zeros (s : jsstring) : jsstring :=
  match s with
  | c :: (_ :: _) as s' => if c =? 48 then strip_leading_zeros s' else s
  | _ => s
  end.

Definition int_to_string (n : N) : jsstring :=
  strip_leading_zeros (digits_of (S (N.to_nat (N.log2 n))) n).

Definition Qpow10 (k : nat) : Q := inject_Z (10 ^ Z.of_nat k).

(** [Number.prototype.toFixed] on [0 <= x < 1e21]: the integer [n] nearest to
    [x * 10^dm], the larger one on a tie, written with [dm] fractional digits. *)
Definition toFixed (x : Q) (dm : Z) : completion jsstring :=
  if ((dm <? 0) || (100 <? dm))%Z then Throw RangeError
  else
    let k := Z.to_nat dm in
    let n := Z.to_N (Qfloor (x * Qpow10 k + (1 # 2))%Q) in
    Normal (int_to_string (n / 10 ^ N.of_nat k) ++
            match k with
            | O => []
            | S _ => ch "." :: digits_of k n
            end).

Fixpoint span_digits (s : jsstring) : jsstring * jsstring :=
  match s with
  | [] => ([], [])
  | c :: s' =>
      if is_digit c then let '(ds, r) := span_digits s' in (c :: ds, r)
      else ([], s)
  end.

Definition digits_value (ds : jsstring) : N :=
  fold_left (fun a c => 10 * a + (c - 48)) ds 0.

(** [parseFloat]: leading white space, a sign, digits, a point and digits;
    [None] is NaN.  Exponents and [Infinity] do not occur in the texts parsed
    here. *)
Definition parseFloat (s : jsstring) : option Q :=
  let s := trimStart s in
  let '(neg, s) :=
    match s with
    | c :: s' =>
        if c =? ch "-" then (true, s')
        else if c =? ch "+" then (false, s')
        else (false, s)
    | [] => (false, [])
    end in
  let '(ip, r) := span_digits s in
  let fp :=
    match r with
    | c :: r' => if c =? ch "." then fst (span_digits r') else []
    | [] => []
    end in
  match ip, fp with
  | [], [] => None
  | _, _ =>
      let m := (inject_Z (Z.of_N (digits_value ip))
                + inject_Z (Z.of_N (digits_value fp)) / Qpow10 (length fp))%Q in
      Some (if neg : bool then (- m)%Q else m)
  end.

(** The fractional digits of [0 <= r < 1], up to the last one that is not
    zero. *)
Fixpoint frac_digits (fuel : nat) (r : Q) : jsstring :=
  match fuel with
  | O => []
  | S fuel' =>
      if Qeq_bool r 0%Q then []
      else
        let d := Qfloor (r * 10)%Q in
        digit_char (Z.to_N d) :: frac_digits fuel' (r * 10 - inject_Z d)%Q
  end.

Definition nonneg_to_string (q : Q) : jsstring :=
  let ip := Qfloor q in
  int_to_string (Z.to_N ip) ++
  match frac_digits 20 (q - inject_Z ip)%Q with
  | [] => []
  | ds => ch "." :: ds
  end.

(** The text of a number in a string concatenation, for a magnitude in
    [1e-6, 1e21) with a short decimal expansion. *)
Definition Number_toString (x : option Q) : jsstring :=
  match x with
  | None => lit "NaN"
  | Some q =>
      if Qle_bool 0%Q q then nonneg_to_string q
      else ch "-" :: nonneg_to_string (- q)%Q
  end.

(** ** Brainchild.utils.formatBytes *)

Definition sizes : list jsstring := [lit "Bytes"; lit "KB"; lit "MB"; lit "GB"].

(** [Math.floor(Math.log(bytes) / Math.log(1024))] for [bytes >= 1]: the
    integer logarithm in base 1024, which is what the quotient of the two
    floating-point logarithms gives below 1024^4, where the units end. *)
Definition log1024_floor (bytes : N) : N := N.log2 bytes / 10.

Definition formatBytes (bytes : N) (decimals : Z) : completion jsstring :=
  if bytes =? 0 then Normal (lit "0 Bytes")
  else
    let k := 1024 in
    let dm := if (decimals <? 0)%Z then 0%Z else decimals in
    let i := log1024_floor bytes in
    s <-- toFixed (inject_Z (Z.of_N bytes) / inject_Z (Z.of_N (k ^ i)))%Q dm ;;
    Normal (Number_toString (parseFloat s) ++ lit " " ++
            default (lit "undefined") (sizes !! N.to_nat i)).

(** The default value of the parameter [decimals]. *)
Definition default_decimals : Z := 2.

(** ** Brainchild.utils.validateImageFile *)

Record File := mkFile { file_type : jsstring; file_size : N }.

Definition includes (l : list jsstring) (x : jsstring) : bool :=
  existsb (jsstring_eqb x) l.

Definition msg_no_file : jsstring := lit "Nenhum arquivo selecionado".
Definition msg_bad_type : jsstring :=
  lit "Tipo de arquivo n" ++ [a_tilde] ++ lit "o permitido. Use: JPG, PNG, GIF ou WEBP".
Definition msg_too_big (max : jsstring) : jsstring :=
  lit "Arquivo muito grande. M" ++ [a_acute] ++ lit "ximo: " ++ max.
Definition msg_file_ok : jsstring := lit "Arquivo v" ++ [a_acute] ++ lit "lido".

(** [file] is [None] for a falsy argument ([null], [undefined]). *)
Definition validateImageFile (file : option File) : completion vresult :=
  match file with
  | None => Normal (VResult false msg_no_file)
  | Some f =>
      if negb (includes config.allowedImageTypes (file_type f)) then
        Normal (VResult false msg_bad_type)
      else if config.maxFileSize <? file_size f then
        max <-- formatBytes config.maxFileSize default_decimals ;;
        Normal (VResult false (msg_too_big max))
      else Normal (VResult true msg_file_ok)
  end.

(** ** Brainchild.ui.setButtonLoading *)

(** A button element: its markup as [innerHTML] reads it, its content
    attributes by name, and the reflected [disabled] flag. *)
Record Button := mkButton {
  innerHTML : jsstring;
  attributes : gmap string jsstring;
  disabled : bool
}.

Definition spinner_markup : jsstring :=
  lit "<span class=" ++ [dquote] ++ lit "spinner-border spinner-border-sm me-2"
    ++ [dquote] ++ lit "></span>".

Definition default_loadingText : jsstring := lit "Carregando...".

(** Assigning to [innerHTML] parses the text into the children of the
    button, and reading [innerHTML] serialises them again.  The parser and
    the serialiser of the page are not modelled: [reparse s] stands for the
    markup read from a button after [s] was assigned. *)
Definition setButtonLoading (reparse : jsstring -> jsstring) (button : Button)
    (loading : bool) (loadingText : jsstring) : Button :=
  if loading then
    {| innerHTML := reparse (spinner_markup ++ loadingText);
       attributes := <["data-original-text" := innerHTML button]> (attributes button);
       disabled := true |}
  else
    let originalText := attributes button !! "data-original-text" in
    match originalText with
    | Some t =>
        if truthy t then
          {| innerHTML := reparse t;
             attributes := delete "data-original-text" (attributes button);
             disabled := false |}
        else
          {| innerHTML := innerHTML button;
             attributes := attributes button;
             disabled := false |}
    | None =>
        {| innerHTML := innerHTML button;
           attributes := attributes button;
           disabled := false |}
    end.

(** ** Brainchild.forms: field validation *)

(** [parseInt(s)] with no radix: leading white space, a sign, an optional
    [0x] prefix, then the digits of the radix; [None] is NaN.  The result is
    the exact integer, as it is in JavaScript below 2^53. *)
Definition digit_in_radix (radix c : N) : option N :=
  let d :=
    if in_range "0" "9" c then Some (c - 48)
    else if in_range "a" "z" c then Some (c - 97 + 10)
    else if in_range "A" "Z" c then Some (c - 65 + 10)
    else None in
  match d with
  | Some v => if v <? radix then Some v else None
  | None => None
  end.

Fixpoint parse_digits (radix : N) (acc : option N) (s : jsstring) : option N :=
  match s with
  | [] => acc
  | c :: s' =>
      match digit_in_radix radix c with
      | Some d => parse_digits radix (Some (radix * default 0 acc + d)) s'
      | None => acc
      end
  end.

Definition parseInt (s : jsstring) : option Z :=
  let s := trimStart s in
  let '(neg, s) :=
    match s with
    | c :: s' =>
        if c =? ch "-" then (true, s')
        else if c =? ch "+" then (false, s')
        else (false, s)
    | [] => (false, [])
    end in
  let '(radix, s) :=
    match s with
    | z :: x :: s' =>
        if (z =? ch "0") && ((x =? ch "x") || (x =? ch "X")) then (16, s') else (10, s)
    | _ => (10, s)
    end in
  match parse_digits radix None s with
  | Some n => Some (if neg : bool then (- Z.of_N n)%Z else Z.of_N n)
  | None => None
  end.

(** Comparisons with a number that may be NaN are false on NaN. *)
Definition num_lt (a : Z) (b : option Z) : bool :=
  match b with Some b => (a <? b)%Z | None => false end.
Definition num_gt (a : Z) (b : option Z) : bool :=
  match b with Some b => (b <? a)%Z | None => false end.

(** The element next to a field that shows its message. *)
Record Feedback := mkFeedback {
  textContent : jsstring;
  display : jsstring
}.

(** A form field: its [value] and [type] properties, its content attributes,
    its class list, and the [.invalid-feedback] element of its parent, if one
    exists already. *)
Record Field := mkField {
  value : jsstring;
  type : jsstring;
  attrs : gmap string jsstring;
  classList : gset string;
  feedback : option Feedback
}.

Definition hasAttribute (f : Field) (name : string) : bool :=
  bool_decide (is_Some (attrs f !! name)).

(** [getAttribute]: [None] is [null]. *)
Definition getAttribute (f : Field) (name : string) : option jsstring :=
  attrs f !! name.

(** Truthiness of the result of [getAttribute]. *)
Definition attr_truthy (a : option jsstring) : bool :=
  match a with Some s => truthy s | None => false end.

Definition attr_text (a : option jsstring) : jsstring := default (lit "null") a.

Module forms.

Definition not_space_at : cls := cls_not (cls_or is_ws (is_char "@")).

(** The pattern of an email: a run without space or at-sign, an at-sign, a
    run, a dot, a run, anchored at both ends. *)
Definition emailRegex : regex :=
  Regex true
    [ (not_space_at, Plus); (is_char "@", Once); (not_space_at, Plus);
      (is_char ".", Once); (not_space_at, Plus) ]
    true.

Definition msg_required : jsstring :=
  lit "Este campo " ++ [e_acute] ++ lit " obrigat" ++ [o_acute] ++ lit "rio".
Definition msg_email : jsstring := lit "Email inv" ++ [a_acute] ++ lit "lido".
Definition msg_min (minLength : jsstring) : jsstring :=
  lit "M" ++ [i_acute] ++ lit "nimo " ++ minLength ++ lit " caracteres".
Definition msg_max (maxLength : jsstring) : jsstring :=
  lit "M" ++ [a_acute] ++ lit "ximo " ++ maxLength ++ lit " caracteres".

Definition createFeedbackElement : Feedback := mkFeedback [] [].

Definition updateFieldValidationState (field : Field) (isValid : bool)
    (message : jsstring) : Field :=
  let feedbackElement := default createFeedbackElement (feedback field) in
  if isValid then
    {| value := value field; type := type field; attrs := attrs field;
       classList := (classList field ∖ {["is-invalid"]}) ∪ {["is-valid"]};
       feedback := Some (mkFeedback [] (lit "none")) |}
  else
    {| value := value field; type := type field; attrs := attrs field;
       classList := (classList field ∖ {["is-valid"]}) ∪ {["is-invalid"]};
       feedback := Some (mkFeedback message (lit "block")) |}.

(** The five rules of [validateField], in the order of the source; each one
    that fails overwrites the pair [(isValid, message)].  The last one looks
    its validator up and calls it, which can throw. *)
Definition check_required (field : Field) (v : jsstring) (st : bool * jsstring)
  : bool * jsstring :=
  if hasAttribute field "required" && negb (truthy v) then (false, msg_required)
  else st.

Definition check_email (field : Field) (v : jsstring) (st : bool * jsstring)
  : bool * jsstring :=
  if jsstring_eqb (type field) (lit "email") && truthy v then
    if negb (test emailRegex v) then (false, msg_email) else st
  else st.

Definition check_min (field : Field) (v : jsstring) (st : bool * jsstring)
  : bool * jsstring :=
  let minLength := getAttribute field "minlength" in
  if attr_truthy minLength && (0 <? length v)%nat
     && num_lt (Z.of_nat (length v)) (parseInt (attr_text minLength))
  then (false, msg_min (attr_text minLength))
  else st.

Definition check_max (field : Field) (v : jsstring) (st : bool * jsstring)
  : bool * jsstring :=
  let maxLength := getAttribute field "maxlength" in
  if attr_truthy maxLength
     && num_gt (Z.of_nat (length v)) (parseInt (attr_text maxLength))
  then (false, msg_max (attr_text maxLength))
  else st.

Definition check_custom (field : Field) (v : jsstring) (st : bool * jsstring)
  : completion (bool * jsstring) :=
  if hasAttribute field "data-validate" then
    let validationType := attr_text (getAttribute field "data-validate") in
    match customValidations.lookup validationType with
    | Some (customValidations.Validator customValidation) =>
        let result := customValidation v in
        if negb (valid result) then Normal (false, message result) else Normal st
    | Some customValidations.ReturnsOther =>
        (* [result.valid] is [undefined], and so is [result.message], which
           [textContent] takes as the empty text *)
        Normal (false, [])
    | Some customValidations.ThrowsTypeError => Throw TypeError
    | None => Normal st
    end
  else Normal st.

(** The pair [(isValid, message)] when the rules have run. *)
Definition run_rules (field : Field) : completion (bool * jsstring) :=
  let v := trim (value field) in
  check_custom field v
    (check_max field v
      (check_min field v
        (check_email field v
          (check_required field v (true, []))))).

(** [validateField]: the returned flag and the field as it is left; when the
    validator throws, the field has not been touched. *)
Definition validateField (field : Field) : completion (bool * Field) :=
  st <-- run_rules field ;;
  Normal (fst st, updateFieldValidationState field (fst st) (snd st)).

(** The message shown next to the field. *)
Definition displayed (field : Field) : jsstring :=
  match feedback field with
  | Some fb => textContent fb
  | None => []
  end.

End forms.

Definition text_field (v : jsstring) (a : list (string * jsstring)) : Field :=
  mkField v (lit "text") (list_to_map a) ∅ None.

(** ** Timers

    [setTimeout] takes its delay as a 32-bit integer: an integer delay is
    reduced modulo 2^32 into the range from -2^31 to 2^31 - 1, and a negative
    delay counts as zero. *)
Definition to_int32 (z : Z) : Z := ((z + 2 ^ 31) mod 2 ^ 32 - 2 ^ 31)%Z.

Definition timer_delay (delay : Z) : Z := Z.max 0 (to_int32 delay).

(** ** Brainchild.utils.debounce

    Timers are kept by an event loop with a clock in milliseconds.  A timer
    holds the closure [later] of one call of the wrapper, that is, the
    arguments of that call; running [func] is recorded with the time. *)

Section Debounce.

Context {A : Type}.

Record loop := mkLoop {
  now : Z;
  next_timer : nat;
  timers : list (nat * (Z * A));   (* id, due time, captured arguments *)
  timeout : option nat;            (* the variable of the closure *)
  fired : list (Z * A)             (* the calls of [func] so far *)
}.

Definition start : loop := mkLoop 0 1 [] None [].

(** [clearTimeout(undefined)] does nothing. *)
Definition clearTimeout (id : option nat) (w : loop) : loop :=
  match id with
  | None => w
  | Some i =>
      mkLoop (now w) (next_timer w)
        (filter (fun t => fst t ≠ i) (timers w)) (timeout w) (fired w)
  end.

(** [setTimeout(later, wait)] *)
Definition setTimeout (args : A) (wait : Z) (w : loop) : nat * loop :=
  (next_timer w,
   mkLoop (now w) (S (next_timer w))
     (timers w ++ [(next_timer w, ((now w + timer_delay wait)%Z, args))])
     (timeout w) (fired w)).

(** The closure [later] of a call with arguments [args]. *)
Definition later (args : A) (w : loop) : loop :=
  let w := clearTimeout (timeout w) w in
  mkLoop (now w) (next_timer w) (timers w) (timeout w) (fired w ++ [(now w, args)]).

(** One call of the wrapper returned by [debounce(func, wait)]. *)
Definition executedFunction (wait : Z) (args : A) (w : loop) : loop :=
  let w := clearTimeout (timeout w) w in
  let '(id, w) := setTimeout args wait w in
  mkLoop (now w) (next_timer w) (timers w) (Some id) (fired w).

(** The pending timer that is due first, the older one on a tie. *)
Fixpoint earliest (l : list (nat * (Z * A))) : option (nat * (Z * A)) :=
  match l with
  | [] => None
  | t :: l' =>
      match earliest l' with
      | Some t' => if (fst (snd t') <? fst (snd t))%Z then Some t' else Some t
      | None => Some t
      end
  end.

(** The event loop up to time [T]: timers that are due run in order, each at
    its due time. *)
Fixpoint run_timers (fuel : nat) (T : Z) (w : loop) : loop :=
  match fuel with
  | O => w
  | S fuel' =>
      match earliest (timers w) with
      | Some (id, (due, args)) =>
          if (due <=? T)%Z then
            run_timers fuel' T
              (later args
                 (mkLoop (Z.max (now w) due) (next_timer w)
                    (filter (fun t => fst t ≠ id) (timers w))
                    (timeout w) (fired w)))
          else w
      | None => w
      end
  end.

Definition advance_to (T : Z) (w : loop) : loop :=
  let w := run_timers (length (timers w)) T w in
  mkLoop (Z.max (now w) T) (next_timer w) (timers w) (timeout w) (fired w).

(** Calls of the wrapper at given times, then the loop runs on to time [T]. *)
Definition call_at (wait : Z) (w : loop) (c : Z * A) : loop :=
  executedFunction wait (snd c) (advance_to (fst c) w).

Definition simulate (wait : Z) (calls : list (Z * A)) (T : Z) : loop :=
  advance_to T (fold_left (call_at wait) calls start).

End Debounce.

Arguments loop A : clear implicits.

(** ** Brainchild.ui.showConfirmModal

    The modal widget of the host library is a black box with [show()],
    [hide()] and the notification [hidden.bs.modal]; the element has the
    class [fade], so hiding takes a transition during which the element is
    still in the page. *)

Inductive widget := Shown | Hiding | Hidden.

(** What can happen to an open modal. *)
Inductive event :=
  | ClickConfirm        (* a click event on [.btn-confirm] *)
  | ClickCancel         (* a click event on [.btn-cancel] *)
  | Dismiss             (* the close button, the backdrop, the escape key *)
  | TransitionEnd.      (* the widget has finished hiding *)

Section ConfirmModal.

(** The callbacks are opaque; calling one is recorded. *)
Context {C : Type}.

Record modal := mkModal {
  modal_id : jsstring;
  title_html : jsstring;
  body_html : jsstring;
  in_body : bool;          (* the element is a child of [document.body] *)
  bs : widget;
  invoked : list C
}.

Definition createConfirmModal (id title message : jsstring) : modal :=
  mkModal id (escapeHtml title) (escapeHtml message) false Hidden [].

Definition hide (m : modal) : modal :=
  mkModal (modal_id m) (title_html m) (body_html m) (in_body m)
    (match bs m with Shown => Hiding | s => s end) (invoked m).

Definition call (cb : option C) (m : modal) : modal :=
  match cb with
  | Some c =>
      mkModal (modal_id m) (title_html m) (body_html m) (in_body m) (bs m)
        (invoked m ++ [c])
  | None => m
  end.

(** [rnd] is the text produced by [generateId]. *)
Definition showConfirmModal (rnd title message : jsstring)
    (onConfirm onCancel : option C) : modal :=
  let modalId := lit "confirmModal_" ++ rnd in
  let m := createConfirmModal modalId title message in
  mkModal (modal_id m) (title_html m) (body_html m) true Shown (invoked m).

(** The listeners attached by [showConfirmModal].  They stay on the buttons
    for good: a click event runs its listener also while the widget hides
    and after the element has left the page. *)
Definition dispatch (onConfirm onCancel : option C) (m : modal) (e : event) : modal :=
  match e with
  | ClickConfirm => call onConfirm (hide m)
  | ClickCancel => call onCancel (hide m)
  | Dismiss => hide m
  | TransitionEnd =>
      match bs m with
      | Hiding =>
          mkModal (modal_id m) (title_html m) (body_html m) false Hidden (invoked m)
      | _ => m
      end
  end.

Definition interact (rnd title message : jsstring) (onConfirm onCancel : option C)
    (evs : list event) : modal :=
  fold_left (dispatch onConfirm onCancel) evs
    (showConfirmModal rnd title message onConfirm onCancel).

(** [window.showConfirmModal(title, message, callback)] *)
Definition window_showConfirmModal (rnd title message : jsstring)
    (callback : option C) (evs : list event) : modal :=
  interact rnd title message callback None evs.

End ConfirmModal.

Arguments modal C : clear implicits.

(** ** Brainchild.forms.validateForm and the submit listener

    A form holds its fields in document order.  The feedback element of a
    field is looked up in the parent of the field, so fields with the same
    parent share it; the parents of the fields are taken not to contain one
    another, and [feedbacks] holds, for every parent, the feedback element it
    has so far. *)

Record FormField := mkFormField {
  ff_value : jsstring;
  ff_type : jsstring;
  ff_attrs : gmap string jsstring;
  ff_classList : gset string;
  ff_parent : nat
}.

Record Form := mkForm {
  form_fields : list FormField;
  feedbacks : gmap nat Feedback
}.

(** The field as [validateField] sees it. *)
Definition as_field (fb : gmap nat Feedback) (ff : FormField) : Field :=
  mkField (ff_value ff) (ff_type ff) (ff_attrs ff) (ff_classList ff)
    (fb !! ff_parent ff).

(** [validateField] on a field of a form: the flag, the field and the
    feedback elements afterwards, unless the validator throws. *)
Definition validate_in_form (fb : gmap nat Feedback) (ff : FormField)
  : completion (bool * FormField * gmap nat Feedback) :=
  r <-- forms.validateField (as_field fb ff) ;;
  let f' := snd r in
  Normal (fst r,
          mkFormField (value f') (type f') (attrs f') (classList f') (ff_parent ff),
          match feedback f' with
          | Some e => <[ff_parent ff := e]> fb
          | None => fb
          end).

(** [fields.forEach] in [validateForm]: the fields are visited in the order
    of the document, those already visited being in [done].  An exception
    ends the loop: the field that threw and the fields after it stay as they
    are. *)
Fixpoint validate_each (isValid : bool) (done todo : list FormField)
    (fb : gmap nat Feedback) : completion bool * list FormField * gmap nat Feedback :=
  match todo with
  | [] => (Normal isValid, done, fb)
  | ff :: rest =>
      match validate_in_form fb ff with
      | Normal (ok, ff', fb') =>
          validate_each (if negb ok then false else isValid) (done ++ [ff']) rest fb'
      | Throw e => (Throw e, done ++ ff :: rest, fb)
      end
  end.

(** [validateForm]: what it returns or throws, and the form as it is left. *)
Definition validateForm (form : Form) : completion bool * Form :=
  let '(r, fields, fb) :=
    validate_each true [] (form_fields form) (feedbacks form) in
  (r, mkForm fields fb).

(** The submit event: whether [preventDefault] and [stopPropagation] were
    called. *)
Record SubmitEvent := mkSubmitEvent {
  defaultPrevented : bool;
  propagationStopped : bool
}.

(** The submit listener of [setupFormValidation]; when [validateForm]
    throws, the listener ends there and the event is as it was. *)
Definition on_submit (form : Form) (e : SubmitEvent) : SubmitEvent * Form :=
  let '(r, form') := validateForm form in
  match r with
  | Normal isValid =>
      if negb isValid then (mkSubmitEvent true true, form') else (e, form')
  | Throw _ => (e, form')
  end.

(** ** Numbers as text *)

(** The text of a number that is NaN ([None]) or an integer of at most 2^53
    in absolute value: up to there every integer is a number of its own and
    is written with all its digits. *)
Definition Z_to_string (z : Z) : jsstring :=
  if (z <? 0)%Z then ch "-" :: int_to_string (Z.to_N (- z)) else int_to_string (Z.to_N z).

Definition number_text (x : option Z) : jsstring :=
  match x with
  | Some z => Z_to_string z
  | None => lit "NaN"
  end.

(** ** Brainchild.components: the character counter *)

Record Counter := mkCounter {
  counter_text : jsstring;
  counter_classes : gset string
}.

(** [createCharacterCounter]: a [small] element with three classes. *)
Definition createCharacterCounter : Counter :=
  mkCounter [] {["form-text"; "text-muted"; "character-counter"]}.

(** [maxLength] is the result of [parseInt] on the attribute. *)
Definition updateCharacterCounter (textarea_value : jsstring) (counter : Counter)
    (maxLength : option Z) : Counter :=
  let currentLength := Z.of_nat (length textarea_value) in
  let remaining := option_map (fun m => (m - currentLength)%Z) maxLength in
  let text := Z_to_string currentLength ++ lit "/" ++ number_text maxLength
              ++ lit " caracteres" in
  if num_gt 50 remaining then
    mkCounter text ((counter_classes counter ∪ {["text-warning"]}) ∖ {["text-muted"]})
  else
    mkCounter text ((counter_classes counter ∪ {["text-muted"]}) ∖ {["text-warning"]}).

(** ** Brainchild.components.setupScrollAnimations

    The callback of the observer on one observed element; calls of
    [animateCounter] are counted. *)

Record Card := mkCard {
  card_classes : gset string;
  card_counter : option (gmap string jsstring);   (* [.stat-content h3], its attributes *)
  animations : nat                                 (* calls of [animateCounter] *)
}.

(** One entry of the observer, with its [isIntersecting] flag. *)
Definition observe_entry (card : Card) (isIntersecting : bool) : Card :=
  if isIntersecting then
    let classes := card_classes card ∪ {["fade-in"]} in
    if bool_decide ("stat-card" ∈ classes) then
      match card_counter card with
      | Some a =>
          if negb (bool_decide (is_Some (a !! "data-animated"))) then
            mkCard classes (Some (<["data-animated" := lit "true"]> a))
              (S (animations card))
          else mkCard classes (Some a) (animations card)
      | None => mkCard classes None (animations card)
      end
    else mkCard classes (card_counter card) (animations card)
  else card.

Definition observe_entries (card : Card) (entries : list bool) : Card :=
  fold_left observe_entry entries card.

(** ** Class lists

    The tokens of a [className]: the runs between ASCII white space, each
    kept once, in order. *)

Definition is_ascii_ws : cls := fun c =>
  (c =? 9) || (c =? 10) || (c =? 12) || (c =? 13) || (c =? 32).

Fixpoint split_ws (cur : jsstring) (s : jsstring) : list jsstring :=
  match s with
  | [] => match cur with [] => [] | _ => [cur] end
  | c :: s' =>
      if is_ascii_ws c then
        match cur with
        | [] => split_ws [] s'
        | _ => cur :: split_ws [] s'
        end
      else split_ws (cur ++ [c]) s'
  end.

(** A token that comes again is kept where it came first. *)
Definition class_tokens (className : jsstring) : list jsstring :=
  rev (remove_dups (rev (split_ws [] className))).

(** [classList.add(token)] *)
Definition class_add (token : jsstring) (l : list jsstring) : list jsstring :=
  if bool_decide (token ∈ l) then l else l ++ [token].

(** ** Brainchild.ui: toasts

    The page keeps a clock, the pending timers, the toast elements made so
    far and the children of the element [#toast-container], if it exists. *)

Definition nl : N := 10.
Definition spaces (k : nat) : jsstring := replicate k 32.

Record ToastEl := mkToastEl {
  toast_classes : list jsstring;
  toast_html : jsstring
}.

Definition createToastElement (message type : jsstring) : ToastEl :=
  mkToastEl
    (class_tokens (lit "toast align-items-center text-white bg-" ++ type ++ lit " border-0"))
    ([nl] ++ spaces 12 ++ lit "<div class=" ++ [dquote] ++ lit "d-flex" ++ [dquote] ++ lit ">"
     ++ [nl] ++ spaces 16 ++ lit "<div class=" ++ [dquote] ++ lit "toast-body" ++ [dquote]
     ++ lit ">"
     ++ [nl] ++ spaces 20 ++ escapeHtml message
     ++ [nl] ++ spaces 16 ++ lit "</div>"
     ++ [nl] ++ spaces 16 ++ lit "<button type=" ++ [dquote] ++ lit "button" ++ [dquote]
     ++ lit " class=" ++ [dquote] ++ lit "btn-close btn-close-white me-2 m-auto" ++ [dquote]
     ++ lit " onclick=" ++ [dquote]
     ++ lit "Brainchild.ui.removeToast(this.closest('.toast'))" ++ [dquote]
     ++ lit "></button>"
     ++ [nl] ++ spaces 12 ++ lit "</div>"
     ++ [nl] ++ spaces 8).

(** What a timer of the toasts does when it fires. *)
Inductive task :=
  | AddShow (toast : nat)       (* [toast.classList.add('show')] *)
  | AutoRemove (toast : nat)    (* [this.removeToast(toast)] *)
  | Detach (toast : nat).       (* the closure set up by [removeToast] *)

#[global] Instance task_eq_dec : EqDecision task.
Proof. solve_decision. Defined.

Definition task_toast (k : task) : nat :=
  match k with AddShow t | AutoRemove t | Detach t => t end.

Record page := mkPage {
  page_now : Z;
  next_timer_id : nat;
  page_timers : list (nat * (Z * task));   (* id, due time, task *)
  container : option (list nat);           (* children of the container *)
  toasts : gmap nat ToastEl;
  next_toast : nat
}.

Definition empty_page : page := mkPage 0 1 [] None ∅ 0.

Definition children (w : page) : list nat := default [] (container w).

Definition page_setTimeout (k : task) (delay : Z) (w : page) : page :=
  mkPage (page_now w) (S (next_timer_id w))
    (page_timers w ++ [(next_timer_id w, ((page_now w + timer_delay delay)%Z, k))])
    (container w) (toasts w) (next_toast w).

Definition toast_add_class (token : jsstring) (t : nat) (w : page) : page :=
  mkPage (page_now w) (next_timer_id w) (page_timers w) (container w)
    (alter (fun el => mkToastEl (class_add token (toast_classes el)) (toast_html el))
       t (toasts w))
    (next_toast w).

(** The container is made when [getElementById] does not find it. *)
Definition getOrCreateToastContainer (w : page) : page :=
  match container w with
  | Some _ => w
  | None =>
      mkPage (page_now w) (next_timer_id w) (page_timers w) (Some [])
        (toasts w) (next_toast w)
  end.

Definition removeToast (t : nat) (w : page) : page :=
  page_setTimeout (Detach t) 300 (toast_add_class (lit "hide") t w).

Definition default_type : jsstring := lit "info".
Definition default_duration : Z := 5000.

(** [showToast]: the toast made and the page afterwards. *)
Definition showToast (message type : jsstring) (duration : Z) (w : page) : nat * page :=
  let w := getOrCreateToastContainer w in
  let t := next_toast w in
  let w := mkPage (page_now w) (next_timer_id w) (page_timers w)
             (Some (children w ++ [t]))
             (<[t := createToastElement message type]> (toasts w))
             (S (next_toast w)) in
  let w := page_setTimeout (AddShow t) 10 w in
  let w := page_setTimeout (AutoRemove t) duration w in
  (t, w).

Definition run_task (k : task) (w : page) : page :=
  match k with
  | AddShow t => toast_add_class (lit "show") t w
  | AutoRemove t => removeToast t w
  | Detach t =>
      if bool_decide (t ∈ children w) then
        mkPage (page_now w) (next_timer_id w) (page_timers w)
          (Some (filter (fun c => c ≠ t) (children w))) (toasts w) (next_toast w)
      else w
  end.

Fixpoint earliest_timer (l : list (nat * (Z * task))) : option (nat * (Z * task)) :=
  match l with
  | [] => None
  | t :: l' =>
      match earliest_timer l' with
      | Some t' => if (fst (snd t') <? fst (snd t))%Z then Some t' else Some t
      | None => Some t
      end
  end.

(** The timer [id] leaves the list and the clock moves to its time. *)
Definition take_timer (id : nat) (due : Z) (w : page) : page :=
  mkPage (Z.max (page_now w) due) (next_timer_id w)
    (filter (fun t => fst t ≠ id) (page_timers w))
    (container w) (toasts w) (next_toast w).

(** One turn of the event loop: the timer due first runs, if it is due by
    [T]. *)
Definition page_step (T : Z) (w : page) : option page :=
  match earliest_timer (page_timers w) with
  | Some (id, (due, k)) =>
      if (due <=? T)%Z then Some (run_task k (take_timer id due w)) else None
  | None => None
  end.

Fixpoint page_run (fuel : nat) (T : Z) (w : page) : page :=
  match fuel with
  | O => w
  | S fuel' =>
      match page_step T w with
      | Some w' => page_run fuel' T w'
      | None => w
      end
  end.

(** A task that sets up another timer counts twice. *)
Definition task_weight (k : task) : nat :=
  match k with AutoRemove _ => 2 | _ => 1 end.

Definition timers_weight (l : list (nat * (Z * task))) : nat :=
  sum_list (map (fun t => task_weight (snd (snd t))) l).

Definition page_weight (w : page) : nat := timers_weight (page_timers w).

(** The loop runs until time [T]. *)
Definition page_advance (T : Z) (w : page) : page :=
  let w := page_run (page_weight w) T w in
  mkPage (Z.max (page_now w) T) (next_timer_id w) (page_timers w)
    (container w) (toasts w) (next_toast w).

Definition has_class (token : jsstring) (t : nat) (w : page) : Prop :=
  exists el, toasts w !! t = Some el /\ token ∈ toast_classes el.


(** ** Brainchild.forms: image upload

    The file input with its selection, the preview container, the file
    readers that have not finished yet and the page that shows the toasts.
    The input is a file input, as the initialisation selects them: assigning
    the empty string to its value empties the selection. *)

Record Upload := mkUpload {
  selection : option File;       (* [input.files[0]] *)
  input_id : jsstring;
  container_id : jsstring;
  preview_html : jsstring;       (* the markup last assigned to [container.innerHTML] *)
  preview_display : jsstring;    (* [container.style.display] *)
  readers : list File;           (* the files being read, in the order of the calls *)
  upload_page : page
}.

Definition clearImagePreview (u : Upload) : Upload :=
  mkUpload (selection u) (input_id u) (container_id u) [] (lit "none")
    (readers u) (upload_page u).

(** The template of [reader.onload]. *)
Definition preview_markup (result inputId containerId : jsstring) : jsstring :=
  [nl] ++ spaces 16 ++ lit "<div class=" ++ [dquote] ++ lit "image-preview-wrapper"
    ++ [dquote] ++ lit ">"
  ++ [nl] ++ spaces 20 ++ lit "<img src=" ++ [dquote] ++ result ++ [dquote]
    ++ lit " class=" ++ [dquote] ++ lit "image-preview img-fluid rounded" ++ [dquote]
    ++ lit " alt=" ++ [dquote] ++ lit "Preview" ++ [dquote] ++ lit ">"
  ++ [nl] ++ spaces 20 ++ lit "<button type=" ++ [dquote] ++ lit "button" ++ [dquote]
    ++ lit " class=" ++ [dquote] ++ lit "btn btn-sm btn-outline-danger mt-2" ++ [dquote]
    ++ lit " onclick=" ++ [dquote] ++ lit "Brainchild.forms.removeImagePreview('"
    ++ inputId ++ lit "', '" ++ containerId ++ lit "')" ++ [dquote] ++ lit ">"
  ++ [nl] ++ spaces 24 ++ lit "<i class=" ++ [dquote] ++ lit "bi bi-x" ++ [dquote]
    ++ lit "></i> Remover"
  ++ [nl] ++ spaces 20 ++ lit "</button>"
  ++ [nl] ++ spaces 16 ++ lit "</div>"
  ++ [nl] ++ spaces 12.

(** [showImagePreview]: a reader is made and the read begins; the preview
    waits for the load event. *)
Definition showImagePreview (file : File) (u : Upload) : Upload :=
  mkUpload (selection u) (input_id u) (container_id u) (preview_html u)
    (preview_display u) (readers u ++ [file]) (upload_page u).

(** The load event of the reader number [i], which has read the data URL
    [result]; there is no event for a reader that does not exist. *)
Definition reader_onload (i : nat) (result : jsstring) (u : Upload) : Upload :=
  match readers u !! i with
  | Some _ =>
      mkUpload (selection u) (input_id u) (container_id u)
        (preview_markup result (input_id u) (container_id u)) (lit "block")
        (delete i (readers u)) (upload_page u)
  | None => u
  end.

(** The change listener of [setupImageUpload]. *)
Definition on_change (u : Upload) : completion Upload :=
  match selection u with
  | None => Normal (clearImagePreview u)
  | Some file =>
      validation <-- validateImageFile (Some file) ;;
      if negb (valid validation) then
        let p := snd (showToast (message validation) (lit "danger") default_duration
                        (upload_page u)) in
        Normal (clearImagePreview
                  (mkUpload None (input_id u) (container_id u) (preview_html u)
                     (preview_display u) (readers u) p))
      else Normal (showImagePreview file u)
  end.

(** What happens to an upload: the user leaves the file dialog with [file],
    or with nothing, and the change event is dispatched; or a reader has
    loaded. *)
Inductive upload_event :=
  | Select (file : option File)
  | Load (i : nat) (result : jsstring).

Definition upload_step (e : upload_event) (u : Upload) : completion Upload :=
  match e with
  | Select file =>
      on_change (mkUpload file (input_id u) (container_id u) (preview_html u)
                   (preview_display u) (readers u) (upload_page u))
  | Load i result => Normal (reader_onload i result u)
  end.

Fixpoint upload_run (es : list upload_event) (u : Upload) : completion Upload :=
  match es with
  | [] => Normal u
  | e :: es' => u' <-- upload_step e u ;; upload_run es' u'
  end.

(** ** The submit listeners of a form

    The initialisation gives every form the listener of
    [setupFormValidation] and then, to a form with the attribute
    [data-loading], a second listener that puts the first submit button of
    the form into the loading state.  Both are listeners of the form itself:
    they run in this order, and [stopPropagation] in the first does not keep
    the second from running. *)

Record PageForm := mkPageForm {
  pf_form : Form;
  data_loading : bool;            (* [form[data-loading]] *)
  submitBtn : option Button       (* [button[type="submit"]], the first one *)
}.

Definition msg_processing : jsstring := lit "Processando...".

Definition submit_listeners (reparse : jsstring -> jsstring) (pf : PageForm)
    (e : SubmitEvent) : SubmitEvent * PageForm :=
  let '(e', form') := on_submit (pf_form pf) e in
  if data_loading pf then
    match submitBtn pf with
    | Some b =>
        (e', mkPageForm form' true
               (Some (setButtonLoading reparse b true msg_processing)))
    | None => (e', mkPageForm form' true None)
    end
  else (e', mkPageForm form' false (submitBtn pf)).
(** * Notions of the specification *)

(** The entity that stands for a character, in the words of the
    specification; any other character stands for itself. *)
Definition entity_of (c : N) : jsstring :=
  if c =? ch "&" then lit "&amp;"
  else if c =? ch "<" then lit "&lt;"
  else if c =? ch ">" then lit "&gt;"
  else if c =? dquote then lit "&quot;"
  else if c =? ch "'" then lit "&#039;"
  else [c].

(** What follows the ampersand in the five entities. *)
Definition entity_tails : list jsstring :=
  [lit "amp;"; lit "lt;"; lit "gt;"; lit "quot;"; lit "#039;"].

(** The four characters that never survive escaping. *)
Definition markup_char (c : N) : bool :=
  is_char "<" c || is_char ">" c || is_code dquote c || is_char "'" c.

Definition ascii_letter (c : N) : Prop := 65 <= c <= 90 \/ 97 <= c <= 122.

Definition ascii_digit (c : N) : Prop := 48 <= c <= 57.




(** When the required rule and the email rule fail on the trimmed value
    [v]. *)
Definition required_fails (f : Field) (v : jsstring) : Prop :=
  hasAttribute f "required" = true /\ v = [].


(** The kinds of [data-validate] that find something besides the two
    validators: the members of [Object.prototype] whose call returns a value
    that is no verdict, and those whose call throws. *)
Definition unchecked_kinds : list jsstring :=
  [lit "constructor"; lit "toString"; lit "isPrototypeOf"].

Definition throwing_kinds : list jsstring :=
  [ lit "toLocaleString"; lit "valueOf"; lit "hasOwnProperty";
    lit "propertyIsEnumerable"; lit "__proto__"; lit "__defineGetter__";
    lit "__defineSetter__"; lit "__lookupGetter__"; lit "__lookupSetter__" ].

Definition known_kinds : list jsstring :=
  [lit "username"; lit "password"] ++ unchecked_kinds ++ throwing_kinds.

(** The custom rule throws, or fails with the message [msg]: a validator
    that rejects the value gives its message, a member of
    [Object.prototype] that can be called gives none. *)
Definition custom_throws (f : Field) : Prop :=
  exists k, getAttribute f "data-validate" = Some k /\ k ∈ throwing_kinds.

Definition custom_fails (f : Field) (v msg : jsstring) : Prop :=
  exists k, getAttribute f "data-validate" = Some k /\
    ((k = lit "username" /\ valid (customValidations.username v) = false /\
      msg = message (customValidations.username v)) \/
     (k = lit "password" /\ valid (customValidations.password v) = false /\
      msg = message (customValidations.password v)) \/
     (k ∈ unchecked_kinds /\ msg = [])).


(** What [validateField] lets one see: the flag and the message shown, or
    the exception. *)
Definition outcome (f : Field) : completion (bool * jsstring) :=
  r <-- forms.validateField f ;; Normal (fst r, forms.displayed (snd r)).

Definition starts_with (p : cls) (s : jsstring) : bool :=
  match s with c :: _ => p c | [] => false end.

Definition decimal_value (ip fp : jsstring) : Q :=
  (inject_Z (Z.of_N (digits_value ip))
   + inject_Z (Z.of_N (digits_value fp)) / Qpow10 (length fp))%Q.

Definition is_click (e : event) : bool :=
  match e with ClickConfirm | ClickCancel => true | _ => false end.

Definition option_list {X} (o : option X) : list X :=
  match o with Some x => [x] | None => [] end.

(** The callback a click asks for. *)
Definition callback_of {C} (onConfirm onCancel : option C) (e : event) : list C :=
  match e with
  | ClickConfirm => option_list onConfirm
  | ClickCancel => option_list onCancel
  | _ => []
  end.

Section DebounceSpec.

Context {A : Type}.
Implicit Types (w : loop A) (calls : list (Z * A)).







End DebounceSpec.


(** A character of the three runs of an email: no white space, no at-sign. *)
Definition email_atom (c : N) : Prop := is_ws c = false /\ c <> ch "@".

(** A character of a username: an ASCII letter, a digit or the underscore. *)
Definition username_char (c : N) : Prop :=
  ascii_letter c \/ ascii_digit c \/ c = ch "_".



(** Whether a field of a form passes its rules, and the message of the last
    rule that fails; the rules do not look at the feedback element.  A field
    whose validator throws does not pass. *)
Definition passes (ff : FormField) : bool :=
  match forms.run_rules (as_field ∅ ff) with
  | Normal st => fst st
  | Throw _ => false
  end.

Definition message_of (ff : FormField) : jsstring :=
  match forms.run_rules (as_field ∅ ff) with
  | Normal st => snd st
  | Throw _ => []
  end.

(** The validation of the field throws. *)
Definition field_throws (ff : FormField) : Prop := custom_throws (as_field ∅ ff).

(** The feedback element as the validation of a field leaves it. *)
Definition feedback_of (ff : FormField) : Feedback :=
  if passes ff then mkFeedback [] (lit "none")
  else mkFeedback (message_of ff) (lit "block").


(** The field with the classes the validation gives it. *)
Definition marked (ff : FormField) : FormField :=
  mkFormField (ff_value ff) (ff_type ff) (ff_attrs ff)
    (if passes ff then (ff_classList ff ∖ {["is-invalid"]}) ∪ {["is-valid"]}
     else (ff_classList ff ∖ {["is-valid"]}) ∪ {["is-invalid"]})
    (ff_parent ff).

(** [ff'] is the field [ff] after its validation: marked by its verdict, with
    its other classes, its value, its type and its attributes as before. *)
Definition marked_as (ff ff' : FormField) : Prop :=
  ("is-valid" ∈ ff_classList ff' <-> passes ff = true) /\
  ("is-invalid" ∈ ff_classList ff' <-> passes ff = false) /\
  (forall c : string, c <> "is-valid" -> c <> "is-invalid" ->
     (c ∈ ff_classList ff' <-> c ∈ ff_classList ff)) /\
  ff_value ff' = ff_value ff /\ ff_type ff' = ff_type ff /\
  ff_attrs ff' = ff_attrs ff /\ ff_parent ff' = ff_parent ff.

(** An observed element whose counter is still to be animated: a stat card
    with a counter that does not carry the guard attribute. *)
Definition ready (card : Card) : Prop :=
  "stat-card" ∈ card_classes card /\
  exists a, card_counter card = Some a /\ a !! "data-animated" = None.

(** The timers of one toast that are still pending, by what has happened to
    the toast so far; [t0] is the time of [showToast] and [D] the delay of
    the automatic removal. *)
Definition own_timers (t : nat) (t0 D : Z) (shown hidden detached : bool)
  : list (Z * task) :=
  (if shown then [] else [((t0 + 10)%Z, AddShow t)]) ++
  (if detached then []
   else if hidden then [((t0 + D + 300)%Z, Detach t)]
   else [((t0 + D)%Z, AutoRemove t)]).

(** The pending timers of a page that belong to the toast [t]. *)
Definition own_pending (t : nat) (w : page) : list (nat * (Z * task)) :=
  filter (fun x => task_toast (snd (snd x)) = t) (page_timers w).

(** The timers of a page have distinct ids below the next id. *)
Definition timers_ok (w : page) : Prop :=
  NoDup (map fst (page_timers w)) /\
  forall x, x ∈ page_timers w -> (fst x < next_timer_id w)%nat.

(** A page where nothing refers to a toast that is not made yet. *)
Definition page_ok (w : page) : Prop :=
  timers_ok w /\
  (forall x, x ∈ page_timers w -> (task_toast (snd (snd x)) < next_toast w)%nat) /\
  (forall c, c ∈ children w -> (c < next_toast w)%nat).

(** The toast [t] shown at [t0], seen at a moment of the run of the loop up
    to [T]: whether its class show has been added, whether its removal has
    begun and whether it has left the container, with the timers and the
    times that go with it. *)
Definition toast_state (t : nat) (init : list jsstring) (t0 D T : Z) (w : page)
    (shown hidden detached : bool) : Prop :=
  timers_ok w /\
  (page_now w <= T)%Z /\
  map snd (own_pending t w) = own_timers t t0 D shown hidden detached /\
  (forall e, e ∈ own_timers t t0 D shown hidden detached -> (page_now w <= fst e)%Z) /\
  (t ∈ children w <-> detached = false) /\
  (exists el, toasts w !! t = Some el /\
     forall tok, tok ∈ toast_classes el <->
       tok ∈ init \/ (tok = lit "show" /\ shown = true)
                  \/ (tok = lit "hide" /\ hidden = true)) /\
  (detached = true -> shown = true /\ hidden = true) /\
  (shown = true -> (t0 + 10 <= page_now w)%Z) /\
  (hidden = true -> (t0 + D <= page_now w)%Z) /\
  (detached = true -> (t0 + D + 300 <= page_now w)%Z).

Definition toast_inv (t : nat) (init : list jsstring) (t0 D T : Z) (w : page) : Prop :=
  exists shown hidden detached, toast_state t init t0 D T w shown hidden detached.


(** A file that passes [validateImageFile]: an allowed type and at most the
    maximal size. *)
Definition accepted (f : File) : Prop :=
  file_type f ∈ config.allowedImageTypes /\ file_size f <= config.maxFileSize.
(** * Properties *)

(** ** Regular expressions and strings *)

Lemma test_one_class p s : test (Regex false [(p, Once)] false) s = existsb p s.
Proof.
  unfold test; simpl.
  induction s as [|c s IH]; simpl; [reflexivity|].
  rewrite IH, andb_true_r. reflexivity.
Qed.

Lemma existsb_elem (p : cls) (s : jsstring) :
  existsb p s = true <-> exists c, c ∈ s /\ p c = true.
Proof.
  rewrite existsb_exists. split; intros (c & H1 & H2); exists c; split; auto;
    by apply list_elem_of_In.
Qed.



(** ** escapeHtml *)

Lemma escapeHtml_cons c s : escapeHtml (c :: s) = entity_of c ++ escapeHtml s.
Proof.
  unfold escapeHtml at 1. simpl. fold (escapeHtml s). f_equal.
  unfold entity_of, html_special, cls_or, is_char, is_code.
  destruct (N.eqb_spec c (ch "&")) as [->|]; [reflexivity|].
  destruct (N.eqb_spec c (ch "<")) as [->|]; [reflexivity|].
  destruct (N.eqb_spec c (ch ">")) as [->|]; [reflexivity|].
  destruct (N.eqb_spec c dquote) as [->|]; [reflexivity|].
  destruct (N.eqb_spec c (ch "'")) as [->|]; reflexivity.
Qed.

Lemma entity_of_no_markup c : Forall (fun x => markup_char x = false) (entity_of c).
Proof.
  unfold entity_of.
  destruct (N.eqb_spec c (ch "&")); [repeat constructor|].
  destruct (N.eqb_spec c (ch "<")); [repeat constructor|].
  destruct (N.eqb_spec c (ch ">")); [repeat constructor|].
  destruct (N.eqb_spec c dquote); [repeat constructor|].
  destruct (N.eqb_spec c (ch "'")); [repeat constructor|].
  constructor; [|constructor].
  unfold markup_char, is_char, is_code.
  repeat match goal with H : _ <> _ |- _ => apply N.eqb_neq in H; rewrite H; clear H end.
  reflexivity.
Qed.

Ltac entity_case H pre :=
  destruct pre as [|? pre];
  [ injection H as <-; split; [reflexivity|]; eexists; split; [|reflexivity];
    unfold entity_tails; set_solver
  | exfalso; vm_compute in H;
    repeat (destruct pre as [|? pre]; simpl in H; [discriminate H | try discriminate H]) ].

Lemma entity_of_ampersand c pre post :
  entity_of c = pre ++ ch "&" :: post ->
  pre = [] /\ exists e, e ∈ entity_tails /\ post = e.
Proof.
  unfold entity_of.
  destruct (N.eqb_spec c (ch "&")) as [->|Hamp]; [intros H; entity_case H pre|].
  destruct (N.eqb_spec c (ch "<")) as [->|]; [intros H; entity_case H pre|].
  destruct (N.eqb_spec c (ch ">")) as [->|]; [intros H; entity_case H pre|].
  destruct (N.eqb_spec c dquote) as [->|]; [intros H; entity_case H pre|].
  destruct (N.eqb_spec c (ch "'")) as [->|]; [intros H; entity_case H pre|].
  intros H. destruct pre as [|x pre]; [injection H as -> _; done|].
  destruct pre; discriminate H.
Qed.

(** C2, as stated, does not hold: the entities themselves begin with an
    ampersand, so the escaped text of a single less-than sign contains one. *)
Lemma escapeHtml_keeps_ampersand :
  escapeHtml (lit "<") = lit "&lt;" /\
  ~ (forall s c, c ∈ escapeHtml s -> html_special c = false).
Proof.
  split; [reflexivity|].
  intros H. specialize (H (lit "<") (ch "&")).
  assert (Hin : ch "&" ∈ escapeHtml (lit "<")) by (vm_compute; set_solver).
  apply H in Hin. vm_compute in Hin. discriminate Hin.
Qed.

(** C2, amended: for every string, the escaped text contains no less-than
    sign, greater-than sign, double quote or apostrophe; it is the input with
    each of the five characters replaced by its entity and every other
    character kept; and every ampersand in it begins one of the five
    entities. *)
Theorem escapeHtml_entities s :
  Forall (fun c => markup_char c = false) (escapeHtml s) /\
  escapeHtml s = concat (map entity_of s) /\
  (forall pre post, escapeHtml s = pre ++ ch "&" :: post ->
     exists e, e ∈ entity_tails /\ e `prefix_of` post).
Proof.
  split; [|split].
  - induction s as [|c s IH]; [constructor|].
    rewrite escapeHtml_cons. apply Forall_app. split; [apply entity_of_no_markup|exact IH].
  - induction s as [|c s IH]; [reflexivity|].
    rewrite escapeHtml_cons, IH. reflexivity.
  - induction s as [|c s IH]; intros pre post H.
    + destruct pre; discriminate H.
    + rewrite escapeHtml_cons in H.
      apply app_eq_app in H as [l [[H1 H2]|[H1 H2]]].
      * destruct l as [|x l].
        { simpl in H2. apply (IH [] post). by rewrite <- H2. }
        injection H2 as <- ->.
        apply entity_of_ampersand in H1 as [_ (e & He & ->)].
        exists e. split; [exact He|]. by exists (escapeHtml s).
      * apply (IH l post). exact H2.
Qed.

(** ** customValidations.password *)

Lemma letter_spec c : customValidations.letter c = true <-> ascii_letter c.
Proof.
  unfold customValidations.letter, cls_or, in_range, ascii_letter.
  change (ch "a") with 97. change (ch "z") with 122.
  change (ch "A") with 65. change (ch "Z") with 90.
  rewrite orb_true_iff, !andb_true_iff, !N.leb_le. tauto.
Qed.

Lemma digit_spec c : customValidations.digit c = true <-> ascii_digit c.
Proof.
  unfold customValidations.digit, in_range, ascii_digit.
  change (ch "0") with 48. change (ch "9") with 57.
  rewrite andb_true_iff, !N.leb_le. tauto.
Qed.

Lemma test_letter v :
  test customValidations.letter_regex v = true <-> exists c, c ∈ v /\ ascii_letter c.
Proof.
  unfold customValidations.letter_regex. rewrite test_one_class, existsb_elem.
  split; intros (c & ? & ?); exists c; split; auto; by apply letter_spec.
Qed.

Lemma test_digit v :
  test customValidations.digit_regex v = true <-> exists c, c ∈ v /\ ascii_digit c.
Proof.
  unfold customValidations.digit_regex. rewrite test_one_class, existsb_elem.
  split; intros (c & ? & ?); exists c; split; auto; by apply digit_spec.
Qed.

(** C5: the password validator rejects a value shorter than 6 characters,
    then a value without an ASCII letter, then a value without a digit, the
    first failure giving the message, and accepts every other value; a value
    without a letter or without a digit is invalid whatever its length. *)
Theorem password_rules (v : jsstring) :
  let has (P : N -> Prop) := exists c, c ∈ v /\ P c in
  let password := customValidations.password in
  ((length v < 6)%nat -> password v = VResult false customValidations.msg_short) /\
  ((6 <= length v)%nat -> ~ has ascii_letter ->
     password v = VResult false customValidations.msg_letter) /\
  ((6 <= length v)%nat -> has ascii_letter -> ~ has ascii_digit ->
     password v = VResult false customValidations.msg_digit) /\
  ((6 <= length v)%nat -> has ascii_letter -> has ascii_digit ->
     password v = VResult true []) /\
  (~ has ascii_letter -> valid (password v) = false) /\
  (~ has ascii_digit -> valid (password v) = false) /\
  password (lit "abc") = VResult false customValidations.msg_short /\
  password (lit "abcdef") = VResult false customValidations.msg_digit /\
  password (lit "abc123") = VResult true [].
Proof.
  intros has password. subst has password. unfold customValidations.password.
  pose proof (test_letter v) as Hl. pose proof (test_digit v) as Hd.
  destruct (N.ltb_spec (N.of_nat (length v)) 6) as [Hlen|Hlen];
    destruct (test customValidations.letter_regex v);
    destruct (test customValidations.digit_regex v); simpl;
    repeat split; intros; try reflexivity; try lia;
    try (exfalso; intuition congruence).
Qed.

Lemma password_rules_witness :
  customValidations.password (lit "abc") = VResult false customValidations.msg_short.
Proof.
  destruct (password_rules (lit "abc")) as [H _]. apply H. simpl. lia.
Defined.

(** ** validateImageFile *)

Lemma includes_elem l x : includes l x = true <-> x ∈ l.
Proof.
  unfold includes. rewrite existsb_exists. split.
  - intros (y & Hy & Heq). apply bool_decide_eq_true in Heq. subst. by apply list_elem_of_In.
  - intros H. exists x. split; [by apply list_elem_of_In|]. by apply bool_decide_eq_true.
Qed.

#[local] Arguments formatBytes : simpl never.

Lemma formatBytes_maxFileSize :
  formatBytes config.maxFileSize default_decimals = Normal (lit "16 MB").
Proof. vm_compute. reflexivity. Qed.

(** C3: validateImageFile always returns a result; the result is valid
    exactly when a file is present, its type is one of the five allowed ones
    and its size is at most 16 MB; a file of another type gets the type
    message, a file of an allowed type over the maximum gets the size
    message.  The function reads its argument and the configuration and
    writes nothing, so it is a function of its argument alone. *)
Theorem validateImageFile_spec (file : option File) :
  (exists r, validateImageFile file = Normal r /\
     (valid r = true <->
        exists f, file = Some f /\ file_type f ∈ config.allowedImageTypes
                  /\ file_size f <= config.maxFileSize) /\
     (forall f, file = Some f -> file_type f ∉ config.allowedImageTypes ->
        r = VResult false msg_bad_type) /\
     (forall f, file = Some f -> file_type f ∈ config.allowedImageTypes ->
        config.maxFileSize < file_size f ->
        r = VResult false (msg_too_big (lit "16 MB")))) /\
  config.allowedImageTypes =
    [lit "image/jpeg"; lit "image/jpg"; lit "image/png"; lit "image/gif"; lit "image/webp"] /\
  config.maxFileSize = 16 * 1024 * 1024 /\
  validateImageFile (Some (mkFile (lit "image/png") (10 * 1024 * 1024)))
    = Normal (VResult true msg_file_ok) /\
  validateImageFile (Some (mkFile (lit "image/png") (20 * 1024 * 1024)))
    = Normal (VResult false (msg_too_big (lit "16 MB"))) /\
  validateImageFile (Some (mkFile (lit "text/plain") 1024))
    = Normal (VResult false msg_bad_type).
Proof.
  split; [|repeat split; vm_compute; reflexivity].
  unfold validateImageFile.
  destruct file as [f|].
  2:{ eexists. split; [reflexivity|]. cbn [valid]. repeat split; try discriminate.
      intros (f & Hf & _). discriminate Hf. }
  pose proof (includes_elem config.allowedImageTypes (file_type f)) as Hin.
  destruct (includes config.allowedImageTypes (file_type f)); cbn [negb].
  - destruct (N.ltb_spec config.maxFileSize (file_size f)) as [Hsz|Hsz].
    + rewrite formatBytes_maxFileSize. cbn [cbind]. eexists. split; [reflexivity|]. cbn [valid].
      repeat split; try discriminate.
      * intros (g & [= <-] & _ & Hle). lia.
      * intros g [= <-] Hno. exfalso. apply Hno. by apply Hin.
    + eexists. split; [reflexivity|]. cbn [valid]. repeat split.
      * exists f. repeat split; [by apply Hin|exact Hsz].
      * intros g [= <-] Hno. exfalso. apply Hno. by apply Hin.
      * intros g [= <-] _ Hlt. lia.
  - eexists. split; [reflexivity|]. cbn [valid]. repeat split; try discriminate.
    + intros (g & [= <-] & Hy & _). apply Hin in Hy. discriminate Hy.
    + intros g [= <-] Hy. apply Hin in Hy. discriminate Hy.
Qed.

Lemma validateImageFile_spec_witness :
  validateImageFile (Some (mkFile (lit "text/plain") 1024))
    = Normal (VResult false msg_bad_type).
Proof.
  apply (validateImageFile_spec (Some (mkFile (lit "text/plain") 1024))).
Defined.

(** ** setButtonLoading *)

(** C6, as stated, does not hold: a disabled button that was never loading
    is changed by the call, which enables it. *)
Lemma setButtonLoading_enables_disabled_button :
  let b := mkButton (lit "Salvar") ∅ true in
  attributes b !! "data-original-text" = None /\
  (forall reparse,
     setButtonLoading reparse b false default_loadingText <> b /\
     disabled (setButtonLoading reparse b false default_loadingText) = false).
Proof.
  simpl. split; [reflexivity|]. intros reparse. split; [|reflexivity].
  intros H. apply (f_equal disabled) in H. discriminate H.
Qed.

(** C6, amended: leaving the loading state on a button without the stashed
    attribute keeps the markup and the attributes of the button and leaves
    it enabled; the button is unchanged when it was enabled before. *)
Theorem setButtonLoading_restore_without_stash (reparse : jsstring -> jsstring)
    (b : Button) (loadingText : jsstring) :
  attributes b !! "data-original-text" = None ->
  let b' := setButtonLoading reparse b false loadingText in
  innerHTML b' = innerHTML b /\
  attributes b' = attributes b /\
  disabled b' = false /\
  (disabled b = false -> b' = b).
Proof.
  intros H. unfold setButtonLoading. rewrite H. simpl.
  repeat split. intros Hd. destruct b; simpl in *. by rewrite Hd.
Qed.

Lemma setButtonLoading_restore_without_stash_witness :
  setButtonLoading (fun s => s) (mkButton (lit "Salvar") ∅ false) false default_loadingText
  = mkButton (lit "Salvar") ∅ false.
Proof.
  apply (setButtonLoading_restore_without_stash (fun s => s)
           (mkButton (lit "Salvar") ∅ false) default_loadingText); reflexivity.
Defined.

(** ** validateField *)

Import forms.

Lemma validateField_run_rules f :
  validateField f =
    (st <-- run_rules f ;;
     Normal (fst st, updateFieldValidationState f (fst st) (snd st))).
Proof. reflexivity. Qed.



(** *** The lookup of the validator *)

Lemma prop_get_Some {V} (o : list (jsstring * V)) k x :
  prop_get o k = Some x -> (k, x) ∈ o.
Proof.
  induction o as [|[k' x'] o IH]; [discriminate|]. cbn [prop_get]. unfold jsstring_eqb.
  case_bool_decide as Hk.
  - intros [= <-]. subst. apply elem_of_cons. by left.
  - intros H. apply elem_of_cons. right. by apply IH.
Qed.

Lemma prop_get_None {V} (o : list (jsstring * V)) k :
  prop_get o k = None -> k ∉ map fst o.
Proof.
  induction o as [|[k' x'] o IH]; [intros _ H; by apply elem_of_nil in H|].
  cbn [prop_get map fst]. unfold jsstring_eqb. case_bool_decide as Hk; [discriminate|].
  intros H Hin. apply elem_of_cons in Hin as [Hin|Hin]; [done|]. by apply IH.
Qed.

Lemma known_kinds_found :
  Forall (fun k => k ∈ map fst customValidations.registry
                   \/ k ∈ map fst customValidations.object_prototype) known_kinds.
Proof.
  apply Forall_forall. intros k Hk.
  unfold known_kinds, unchecked_kinds, throwing_kinds in Hk.
  rewrite !elem_of_app, !elem_of_cons, elem_of_nil in Hk.
  repeat (destruct Hk as [Hk|Hk]); try done; subst k;
    first [ left; apply (bool_decide_unpack _); vm_compute; exact I
          | right; apply (bool_decide_unpack _); vm_compute; exact I ].
Qed.

Lemma lookup_cases k :
  (k = lit "username" /\
   customValidations.lookup k = Some (customValidations.Validator customValidations.username)) \/
  (k = lit "password" /\
   customValidations.lookup k = Some (customValidations.Validator customValidations.password)) \/
  (k ∈ unchecked_kinds /\ customValidations.lookup k = Some customValidations.ReturnsOther) \/
  (k ∈ throwing_kinds /\ customValidations.lookup k = Some customValidations.ThrowsTypeError) \/
  ((k ∉ known_kinds) /\ customValidations.lookup k = None).
Proof.
  unfold customValidations.lookup.
  destruct (prop_get customValidations.registry k) as [f|] eqn:Hr.
  - apply prop_get_Some in Hr. unfold customValidations.registry in Hr.
    rewrite !elem_of_cons, elem_of_nil in Hr.
    destruct Hr as [[= -> ->]|[[= -> ->]|[]]]; [left|right; left]; done.
  - apply prop_get_None in Hr. do 2 right.
    destruct (prop_get customValidations.object_prototype k) as [m|] eqn:Ho.
    + apply prop_get_Some in Ho. unfold customValidations.object_prototype in Ho.
      rewrite !elem_of_cons, elem_of_nil in Ho.
      repeat (destruct Ho as [[= -> ->]|Ho]); try done;
        first [ left; split; [apply (bool_decide_unpack _); vm_compute; exact I|reflexivity]
              | right; left; split;
                [apply (bool_decide_unpack _); vm_compute; exact I|reflexivity] ].
    + apply prop_get_None in Ho. do 2 right. split; [|reflexivity].
      intros Hin. pose proof known_kinds_found as Hall.
      rewrite Forall_forall in Hall. destruct (Hall k Hin); done.
Qed.

Lemma kinds_disjoint k :
  (k = lit "username" -> k <> lit "password" /\ (k ∉ unchecked_kinds) /\ (k ∉ throwing_kinds)) /\
  (k = lit "password" -> (k ∉ unchecked_kinds) /\ (k ∉ throwing_kinds)) /\
  (k ∈ unchecked_kinds -> k ∉ throwing_kinds).
Proof.
  split; [|split].
  - intros ->. repeat split; [discriminate|..];
      apply (bool_decide_unpack _); vm_compute; exact I.
  - intros ->. split; apply (bool_decide_unpack _); vm_compute; exact I.
  - intros Hin.
    assert (Hall : Forall (fun x => x ∉ throwing_kinds) unchecked_kinds)
      by (apply (bool_decide_unpack _); vm_compute; exact I).
    rewrite Forall_forall in Hall. by apply Hall.
Qed.

(** The custom rule throws, fails with one message, or leaves the pair as it
    is. *)
Lemma custom_throws_kind f k :
  getAttribute f "data-validate" = Some k -> (custom_throws f <-> k ∈ throwing_kinds).
Proof. unfold custom_throws. intros ->. naive_solver. Qed.

Lemma custom_fails_kind f v k m :
  getAttribute f "data-validate" = Some k ->
  (custom_fails f v m <->
     (k = lit "username" /\ valid (customValidations.username v) = false /\
      m = message (customValidations.username v)) \/
     (k = lit "password" /\ valid (customValidations.password v) = false /\
      m = message (customValidations.password v)) \/
     (k ∈ unchecked_kinds /\ m = [])).
Proof. unfold custom_fails. intros ->. naive_solver. Qed.

Lemma check_custom_cases f v st :
  (custom_throws f /\ check_custom f v st = Throw TypeError) \/
  (~ custom_throws f /\
   exists m, custom_fails f v m /\ (forall m', custom_fails f v m' -> m' = m) /\
             check_custom f v st = Normal (false, m)) \/
  (~ custom_throws f /\ (forall m, ~ custom_fails f v m) /\
   check_custom f v st = Normal st).
Proof.
  unfold check_custom, hasAttribute.
  destruct (getAttribute f "data-validate") as [k|] eqn:Hk.
  2:{ unfold getAttribute in Hk. rewrite Hk.
      rewrite bool_decide_eq_false_2 by (intros [? ?]; discriminate).
      right. right. unfold custom_throws, custom_fails, getAttribute. rewrite Hk.
      repeat split; [intros (? & ? & _)|intros m (? & ? & _)]; discriminate. }
  pose proof (custom_throws_kind f k Hk) as HT.
  pose proof (fun m => custom_fails_kind f v k m Hk) as HF.
  unfold getAttribute in Hk. rewrite Hk.
  rewrite bool_decide_eq_true_2 by eauto. change (attr_text (Some k)) with k.
  pose proof (kinds_disjoint k) as (Du & Dp & Dc).
  destruct (lookup_cases k) as [[Ek ->]|[[Ek ->]|[[Hin ->]|[[Hin ->]|[Hin ->]]]]].
  - destruct (Du Ek) as (Du1 & Du2 & Du3). right. rewrite HT.
    destruct (valid (customValidations.username v)) eqn:Hv; cbn [negb].
    + right. split; [done|]. split; [|reflexivity].
      intros m. rewrite HF. intros [(_ & H & _)|[(H & _)|(H & _)]]; done.
    + left. split; [done|].
      exists (message (customValidations.username v)). split; [|split; [|reflexivity]].
      * apply HF. by left.
      * intros m'. rewrite HF.
        intros [(_ & _ & ->)|[(H & _)|(H & _)]]; [reflexivity|done|done].
  - destruct (Dp Ek) as (Dp1 & Dp2). right. rewrite HT.
    assert (k <> lit "username") by (rewrite Ek; discriminate).
    destruct (valid (customValidations.password v)) eqn:Hv; cbn [negb].
    + right. split; [done|]. split; [|reflexivity].
      intros m. rewrite HF. intros [(H' & _)|[(_ & H' & _)|(H' & _)]]; done.
    + left. split; [done|].
      exists (message (customValidations.password v)). split; [|split; [|reflexivity]].
      * apply HF. right. by left.
      * intros m'. rewrite HF.
        intros [(H' & _)|[(_ & _ & ->)|(H' & _)]]; [done|reflexivity|done].
  - right. left. rewrite HT. split; [by apply Dc|].
    exists []. split; [|split; [|reflexivity]].
    + apply HF. right. by right.
    + intros m'. rewrite HF. intros [(E & _)|[(E & _)|(_ & ->)]]; [| |reflexivity].
      * by destruct (Du E) as (_ & ? & _).
      * by destruct (Dp E) as (? & _).
  - left. rewrite HT. by split.
  - right. right. unfold known_kinds in Hin.
    rewrite !elem_of_app, !elem_of_cons, elem_of_nil in Hin. rewrite HT.
    split; [tauto|]. split; [|reflexivity].
    intros m. rewrite HF. tauto.
Qed.

(** *** The four rules before it *)





(** *** All five *)



(** [validateField] throws exactly when the kind names a member that
    throws, and then it is a TypeError. *)
Lemma validateField_throws f :
  (custom_throws f -> validateField f = Throw TypeError) /\
  (~ custom_throws f -> exists ok f', validateField f = Normal (ok, f')) /\
  (forall e, validateField f = Throw e -> custom_throws f /\ e = TypeError).
Proof.
  rewrite validateField_run_rules. unfold run_rules.
  match goal with |- context [check_custom f ?v ?st] =>
    destruct (check_custom_cases f v st) as
      [[Ht ->]|[(Ht & m & _ & _ & ->)|(Ht & _ & ->)]] end; cbn [cbind].
  - split; [done|]. split; [done|]. intros e' [= <-]. done.
  - split; [done|]. split; [eauto|]. intros e' He'. discriminate He'.
  - split; [done|]. split; [eauto|]. intros e' He'. discriminate He'.
Qed.


Lemma required_empty_fails f :
  hasAttribute f "required" = true -> trim (value f) = [] ->
  required_fails f (trim (value f)).
Proof. by split. Qed.








(** ** debounce *)



Lemma timer_delay_nonneg (z : Z) : (0 <= timer_delay z)%Z.
Proof. unfold timer_delay. lia. Qed.

Section DebounceProps.

Context {A : Type}.
Implicit Types (w : loop A) (calls : list (Z * A)).












End DebounceProps.




(** ** showConfirmModal *)

Section ConfirmModalProps.

Context {C : Type}.
Implicit Types (m : modal C) (evs : list event).

Lemma invoked_call (cb : option C) m : invoked (call cb m) = invoked m ++ option_list cb.
Proof. destruct cb; simpl; [reflexivity|by rewrite app_nil_r]. Qed.

(** One event: a click calls the callback of its button once, nothing else
    calls anything. *)
Lemma invoked_dispatch (onConfirm onCancel : option C) m e :
  invoked (dispatch onConfirm onCancel m e) =
    invoked m ++ callback_of onConfirm onCancel e.
Proof.
  destruct e; cbn [dispatch callback_of]; rewrite ?invoked_call, ?app_nil_r;
    try reflexivity. by destruct (bs m).
Qed.

Lemma invoked_fold (onConfirm onCancel : option C) evs : forall m,
  invoked (fold_left (dispatch onConfirm onCancel) evs m) =
    invoked m ++ concat (map (callback_of onConfirm onCancel) evs).
Proof.
  induction evs as [|e evs IH]; intros m; cbn [fold_left map concat].
  - by rewrite app_nil_r.
  - by rewrite IH, invoked_dispatch, <- app_assoc.
Qed.

Lemma callbacks_bound (onConfirm onCancel : option C) evs :
  (length (concat (map (callback_of onConfirm onCancel) evs))
   <= length (filter (fun e => is_click e = true) evs))%nat.
Proof.
  induction evs as [|e evs IH]; [simpl; lia|].
  cbn [map concat]. rewrite length_app.
  destruct e; rewrite ?filter_cons_True, ?filter_cons_False by (simpl; congruence);
    simpl; destruct onConfirm, onCancel; simpl; lia.
Qed.

Lemma callbacks_no_click (onConfirm onCancel : option C) evs :
  filter (fun e => is_click e = true) evs = [] ->
  concat (map (callback_of onConfirm onCancel) evs) = [].
Proof.
  induction evs as [|e evs IH]; intros Hno; [reflexivity|].
  destruct e; rewrite ?filter_cons_True in Hno by reflexivity; try discriminate Hno;
    rewrite filter_cons_False in Hno by (simpl; congruence);
    cbn [map concat callback_of app]; by apply IH.
Qed.

End ConfirmModalProps.

(** C8, as stated, does not hold: the listeners stay attached and unguarded
    while the modal fades out, so a second click on the confirm button calls
    onConfirm a second time, and a click on each button calls both
    callbacks. *)
Lemma showConfirmModal_callbacks_repeat :
  invoked (interact [] [] [] (Some true) (Some false) [ClickConfirm; ClickConfirm])
    = [true; true] /\
  invoked (interact [] [] [] (Some true) (Some false) [ClickConfirm; ClickCancel])
    = [true; false] /\
  ~ (forall evs, (length (invoked (interact [] [] [] (Some true) (Some false) evs)) <= 1)%nat).
Proof.
  split; [reflexivity|]. split; [reflexivity|].
  intros H. specialize (H [ClickConfirm; ClickConfirm]). vm_compute in H. lia.
Qed.

(** C8, amended: an interaction with at most one click on the two buttons
    calls at most one callback, at most once: a click on the confirm button
    calls onConfirm, a click on the cancel button calls onCancel, and a
    dismissal by other means calls neither.  The listeners are never taken
    off: every further click calls the callback of its button again, also
    after the modal has left the page. *)
Theorem showConfirmModal_callbacks {C : Type} (rnd title message : jsstring)
    (onConfirm onCancel : option C) (evs : list event) :
  let run := interact rnd title message onConfirm onCancel in
  let clicks := filter (fun e => is_click e = true) evs in
  ((length clicks <= 1)%nat -> (length (invoked (run evs)) <= 1)%nat) /\
  (clicks = [] -> invoked (run evs) = []) /\
  (forall pre e post, evs = pre ++ e :: post ->
     filter (fun e => is_click e = true) pre = [] ->
     filter (fun e => is_click e = true) post = [] ->
     invoked (run evs) = callback_of onConfirm onCancel e) /\
  (forall e, invoked (run (evs ++ [e]))
             = invoked (run evs) ++ callback_of onConfirm onCancel e).
Proof.
  intros run clicks. subst run clicks. unfold interact.
  set (m0 := showConfirmModal rnd title message onConfirm onCancel).
  assert (H0 : invoked m0 = []) by reflexivity.
  split; [|split; [|split]].
  - intros H. rewrite invoked_fold, H0. cbn [app].
    pose proof (callbacks_bound onConfirm onCancel evs). lia.
  - intros H. rewrite invoked_fold, H0. cbn [app]. by apply callbacks_no_click.
  - intros pre e post -> Hpre Hpost.
    rewrite invoked_fold, H0, map_app, concat_app. cbn [app map concat].
    rewrite (callbacks_no_click _ _ pre Hpre), (callbacks_no_click _ _ post Hpost).
    cbn [app]. apply app_nil_r.
  - intros e. rewrite fold_left_app. cbn [fold_left]. apply invoked_dispatch.
Qed.

Lemma showConfirmModal_callbacks_witness :
  invoked (interact [] [] [] (Some true) (Some false) [Dismiss; TransitionEnd]) = [] /\
  (length (invoked (interact [] [] [] (Some true) (Some false)
                      [ClickCancel; TransitionEnd])) <= 1)%nat.
Proof.
  split.
  - apply (showConfirmModal_callbacks [] [] [] (Some true) (Some false)
             [Dismiss; TransitionEnd]). reflexivity.
  - apply (showConfirmModal_callbacks [] [] [] (Some true) (Some false)
             [ClickCancel; TransitionEnd]). simpl. lia.
Defined.

(** C10: the global showConfirmModal hands its callback over as the confirm
    handler and gives no cancel handler.  Whatever happens to the modal, the
    only callback ever called is that one, called by clicks on the confirm
    button; a click on the cancel button calls nothing, and an interaction
    without a click on the confirm button calls nothing at all. *)
Theorem window_showConfirmModal_cancel {C : Type} (rnd title message : jsstring)
    (callback : option C) (evs : list event) :
  let run := window_showConfirmModal rnd title message callback in
  run evs = interact rnd title message callback None evs /\
  invoked (run (evs ++ [ClickCancel])) = invoked (run evs) /\
  (forall c, c ∈ invoked (run evs) -> callback = Some c) /\
  (ClickConfirm ∉ evs -> invoked (run evs) = []).
Proof.
  intros run. subst run. unfold window_showConfirmModal, interact.
  set (m0 := showConfirmModal rnd title message callback None).
  split; [reflexivity|]. split; [|split].
  - rewrite fold_left_app. cbn [fold_left].
    rewrite invoked_dispatch. cbn [callback_of option_list]. apply app_nil_r.
  - assert (H : forall m, (forall c, c ∈ invoked m -> callback = Some c) ->
               forall c, c ∈ invoked (fold_left (dispatch callback None) evs m) ->
                         callback = Some c).
    { induction evs as [|e evs IH]; intros m Hm; [exact Hm|].
      cbn [fold_left]. apply IH. intros c. rewrite invoked_dispatch.
      rewrite elem_of_app. intros [Hc|Hc]; [by apply Hm|].
      destruct e; simpl in Hc; try (by apply elem_of_nil in Hc).
      destruct callback; simpl in Hc; [|by apply elem_of_nil in Hc].
      apply list_elem_of_singleton in Hc. by subst. }
    apply H. intros c Hc. by apply elem_of_nil in Hc.
  - assert (H : forall m, ClickConfirm ∉ evs ->
               invoked (fold_left (dispatch callback None) evs m) = invoked m).
    { induction evs as [|e evs IH]; intros m Hno; [reflexivity|].
      apply not_elem_of_cons in Hno as [He Hno].
      cbn [fold_left]. rewrite IH by exact Hno. rewrite invoked_dispatch.
      destruct e; simpl; try apply app_nil_r. done. }
    intros Hno. by rewrite H.
Qed.

Lemma window_showConfirmModal_cancel_witness :
  invoked (window_showConfirmModal [] [] [] (Some true) [ClickCancel; TransitionEnd]) = [].
Proof.
  apply (window_showConfirmModal_cancel [] [] [] (Some true) [ClickCancel; TransitionEnd]).
  intros H. apply elem_of_cons in H as [H|H]; [discriminate H|].
  apply elem_of_cons in H as [H|H]; [discriminate H|]. by apply elem_of_nil in H.
Defined.

(** ** formatBytes *)

(** *** Decimal digits *)

Lemma is_digit_spec c : is_digit c = true <-> 48 <= c <= 57.
Proof.
  unfold is_digit, in_range. change (ch "0") with 48. change (ch "9") with 57.
  rewrite andb_true_iff, !N.leb_le. tauto.
Qed.

Lemma is_digit_digit_char d : d < 10 -> is_digit (digit_char d) = true.
Proof. intros H. apply is_digit_spec. unfold digit_char. lia. Qed.

Lemma digits_value_app ds : forall a,
  fold_left (fun a c => 10 * a + (c - 48)) ds a
  = a * 10 ^ N.of_nat (length ds) + digits_value ds.
Proof.
  unfold digits_value.
  induction ds as [|c ds IH]; intros a; cbn [fold_left length].
  - change (N.of_nat 0) with 0. rewrite N.pow_0_r. lia.
  - rewrite IH, (IH (10 * 0 + (c - 48))).
    rewrite Nat2N.inj_succ, N.pow_succ_r'. lia.
Qed.

Lemma digits_value_cons c ds :
  digits_value (c :: ds) = (c - 48) * 10 ^ N.of_nat (length ds) + digits_value ds.
Proof.
  unfold digits_value at 1. cbn [fold_left]. rewrite digits_value_app. lia.
Qed.

Lemma digits_value_snoc ds c :
  digits_value (ds ++ [c]) = 10 * digits_value ds + (c - 48).
Proof. unfold digits_value. rewrite fold_left_app. reflexivity. Qed.

Lemma digits_of_length k : forall n, length (digits_of k n) = k.
Proof.
  induction k as [|k IH]; intros n; [reflexivity|].
  cbn [digits_of]. rewrite length_app, IH. simpl. lia.
Qed.

Lemma digits_of_digits k : forall n, Forall (fun c => is_digit c = true) (digits_of k n).
Proof.
  induction k as [|k IH]; intros n; [constructor|].
  cbn [digits_of]. apply Forall_app. split; [apply IH|].
  constructor; [|constructor]. apply is_digit_digit_char.
  apply N.mod_lt. lia.
Qed.

Lemma digits_of_value k : forall n, digits_value (digits_of k n) = n mod 10 ^ N.of_nat k.
Proof.
  induction k as [|k IH]; intros n.
  - change (N.of_nat 0) with 0. rewrite N.pow_0_r, N.mod_1_r. reflexivity.
  - cbn [digits_of]. rewrite digits_value_snoc, IH.
    unfold digit_char. rewrite (N.add_comm 48), N.add_sub.
    rewrite Nat2N.inj_succ, N.pow_succ_r'.
    rewrite (N.Div0.mod_mul_r n 10 (10 ^ N.of_nat k)). apply N.add_comm.
Qed.

Lemma strip_leading_zeros_cons c c' ds :
  strip_leading_zeros (c :: c' :: ds) =
    if c =? 48 then strip_leading_zeros (c' :: ds) else c :: c' :: ds.
Proof. reflexivity. Qed.

Lemma strip_leading_zeros_spec ds :
  ds <> [] ->
  strip_leading_zeros ds <> [] /\
  digits_value (strip_leading_zeros ds) = digits_value ds /\
  (Forall (fun c => is_digit c = true) ds ->
   Forall (fun c => is_digit c = true) (strip_leading_zeros ds)).
Proof.
  induction ds as [|c ds IH]; [done|]. intros _.
  destruct ds as [|c' ds]; [by repeat split|].
  rewrite strip_leading_zeros_cons. destruct (N.eqb_spec c 48) as [->|Hc]; [|by repeat split].
  destruct IH as (H1 & H2 & H3); [done|]. repeat split; [exact H1| |].
  - rewrite H2. rewrite (digits_value_cons 48). lia.
  - intros H. apply H3. by inversion H.
Qed.

Lemma int_to_string_spec n :
  int_to_string n <> [] /\
  digits_value (int_to_string n) = n /\
  Forall (fun c => is_digit c = true) (int_to_string n).
Proof.
  unfold int_to_string.
  set (k := S (N.to_nat (N.log2 n))).
  destruct (strip_leading_zeros_spec (digits_of k n)) as (H1 & H2 & H3).
  { intros H. apply (f_equal length) in H. rewrite digits_of_length in H. discriminate H. }
  repeat split; [exact H1| |apply H3, digits_of_digits].
  rewrite H2, digits_of_value. apply N.mod_small.
  subst k. rewrite Nat2N.inj_succ, N2Nat.id.
  destruct (N.eq_dec n 0) as [->|Hn]; [reflexivity|].
  apply N.lt_le_trans with (2 ^ N.succ (N.log2 n)).
  - apply N.log2_spec. lia.
  - apply N.pow_le_mono_l. lia.
Qed.

(** *** Reading a decimal back *)

Lemma span_digits_app ds r :
  Forall (fun c => is_digit c = true) ds -> starts_with is_digit r = false ->
  span_digits (ds ++ r) = (ds, r).
Proof.
  intros Hds Hr. induction Hds as [|c ds Hc _ IH]; cbn [app span_digits].
  - destruct r as [|c r]; [reflexivity|].
    cbn [span_digits starts_with] in *. by rewrite Hr.
  - by rewrite Hc, IH.
Qed.

Lemma digit_not_ws c : is_digit c = true -> is_ws c = false.
Proof.
  intros H. apply is_digit_spec in H. unfold is_ws.
  repeat match goal with
  | |- context [?a <=? ?b] => destruct (N.leb_spec a b); try lia
  | |- context [?a =? ?b] => destruct (N.eqb_spec a b); try lia
  end; reflexivity.
Qed.

Lemma parseFloat_decimal ip fp r :
  ip <> [] ->
  Forall (fun c => is_digit c = true) ip -> Forall (fun c => is_digit c = true) fp ->
  starts_with is_digit r = false ->
  parseFloat (ip ++ ch "." :: fp ++ r) = Some (decimal_value ip fp).
Proof.
  intros Hne Hip Hfp Hr. unfold parseFloat.
  destruct ip as [|c ip]; [done|]. clear Hne.
  assert (Hc : is_digit c = true) by (by inversion Hip).
  cbn [app trimStart]. rewrite (digit_not_ws c Hc).
  pose proof (proj1 (is_digit_spec c) Hc) as Hc'.
  change (ch "-") with 45. change (ch "+") with 43.
  destruct (N.eqb_spec c 45); [lia|]. destruct (N.eqb_spec c 43); [lia|].
  change (c :: ip ++ ch "." :: fp ++ r) with ((c :: ip) ++ ch "." :: fp ++ r).
  rewrite (span_digits_app (c :: ip) _ Hip) by reflexivity.
  rewrite N.eqb_refl. rewrite (span_digits_app fp r Hfp Hr). reflexivity.
Qed.

Lemma parseFloat_integer ip r :
  ip <> [] ->
  Forall (fun c => is_digit c = true) ip ->
  starts_with (cls_or is_digit (is_char ".")) r = false ->
  parseFloat (ip ++ r) = Some (decimal_value ip []).
Proof.
  intros Hne Hip Hr. unfold parseFloat.
  destruct ip as [|c ip]; [done|]. clear Hne.
  assert (Hc : is_digit c = true) by (by inversion Hip).
  cbn [app trimStart]. rewrite (digit_not_ws c Hc).
  pose proof (proj1 (is_digit_spec c) Hc) as Hc'.
  change (ch "-") with 45. change (ch "+") with 43.
  destruct (N.eqb_spec c 45); [lia|]. destruct (N.eqb_spec c 43); [lia|].
  change (c :: ip ++ r) with ((c :: ip) ++ r).
  assert (Hr' : starts_with is_digit r = false).
  { destruct r as [|x r]; [reflexivity|]. simpl in *. unfold cls_or in Hr.
    by apply orb_false_iff in Hr as [-> _]. }
  rewrite (span_digits_app (c :: ip) _ Hip Hr').
  destruct r as [|x r]; [reflexivity|].
  simpl in Hr. unfold cls_or, is_char, is_code in Hr.
  apply orb_false_iff in Hr as [_ ->]. reflexivity.
Qed.

(** *** Rational arithmetic *)

Section Rationals.

Local Open Scope Q_scope.

Lemma Qfloor_unique (q : Q) (z : Z) :
  inject_Z z <= q -> q < inject_Z (z + 1) -> Qfloor q = z.
Proof.
  intros H1 H2.
  pose proof (Qfloor_le q) as H3. pose proof (Qlt_floor q) as H4.
  assert (H5 : inject_Z (Qfloor q) < inject_Z (z + 1)) by (eapply Qle_lt_trans; eauto).
  assert (H6 : inject_Z z < inject_Z (Qfloor q + 1)) by (eapply Qle_lt_trans; eauto).
  rewrite <- Zlt_Qlt in H5, H6. lia.
Qed.

Lemma inject_Z_minus (x y : Z) : inject_Z (x - y) = inject_Z x - inject_Z y.
Proof. unfold Z.sub, Qminus. by rewrite inject_Z_plus, inject_Z_opp. Qed.

Lemma inject_Z_nonzero (p : Z) : (0 < p)%Z -> ~ inject_Z p == 0.
Proof.
  intros Hp H. pose proof (proj1 (inject_Z_injective p 0) H). lia.
Qed.

Lemma Qpow10_pos k : 0 < Qpow10 k.
Proof.
  unfold Qpow10. change 0 with (inject_Z 0). rewrite <- Zlt_Qlt.
  apply Z.pow_pos_nonneg; lia.
Qed.

Lemma Qpow10_succ k : Qpow10 (S k) == 10 * Qpow10 k.
Proof.
  unfold Qpow10. rewrite Nat2Z.inj_succ, Z.pow_succ_r by lia.
  rewrite inject_Z_mult. reflexivity.
Qed.

(** The floor of a quotient of integers is the integer quotient. *)
Lemma Qfloor_div (q : Q) (m p : Z) :
  (0 < p)%Z -> q == inject_Z m / inject_Z p -> Qfloor q = (m / p)%Z.
Proof.
  intros Hp Hq. apply Qfloor_unique; rewrite Hq.
  - apply Qle_shift_div_l.
    + change 0 with (inject_Z 0). by rewrite <- Zlt_Qlt.
    + rewrite <- inject_Z_mult, <- Zle_Qle. rewrite Z.mul_comm. by apply Z.mul_div_le.
  - apply Qlt_shift_div_r.
    + change 0 with (inject_Z 0). by rewrite <- Zlt_Qlt.
    + rewrite <- inject_Z_mult, <- Zlt_Qlt. rewrite Z.mul_comm.
      replace (m / p + 1)%Z with (Z.succ (m / p)) by lia.
      by apply Z.mul_succ_div_gt.
Qed.

Lemma frac_digits_proper fuel : forall r r', r == r' -> frac_digits fuel r = frac_digits fuel r'.
Proof.
  induction fuel as [|fuel IH]; intros r r' H; [reflexivity|].
  cbn [frac_digits].
  assert (Hz : Qeq_bool r 0 = Qeq_bool r' 0).
  { destruct (Qeq_bool r 0) eqn:E1, (Qeq_bool r' 0) eqn:E2; try reflexivity.
    - apply Qeq_bool_iff in E1. apply Qeq_bool_neq in E2. exfalso. apply E2. by rewrite <- H.
    - apply Qeq_bool_iff in E2. apply Qeq_bool_neq in E1. exfalso. apply E1. by rewrite H. }
  rewrite Hz. destruct (Qeq_bool r' 0); [reflexivity|].
  assert (Hf : Qfloor (r * 10) = Qfloor (r' * 10)) by (apply Qfloor_comp; by rewrite H).
  rewrite Hf. f_equal. apply IH. by rewrite H.
Qed.

(** The digits of a decimal fraction read back as the fraction. *)
Lemma frac_digits_decimal k : forall fuel m r,
  (k <= fuel)%nat -> (0 <= m < 10 ^ Z.of_nat k)%Z ->
  r == inject_Z m / Qpow10 k ->
  Forall (fun c => is_digit c = true) (frac_digits fuel r) /\
  inject_Z (Z.of_N (digits_value (frac_digits fuel r)))
    / Qpow10 (length (frac_digits fuel r)) == r.
Proof.
  induction k as [|k IH]; intros fuel m r Hk Hm Hr.
  - assert (m = 0%Z) by (change (10 ^ Z.of_nat 0)%Z with 1%Z in Hm; lia). subst m.
    assert (Hr0 : r == 0) by (rewrite Hr; reflexivity).
    rewrite (frac_digits_proper fuel r 0 Hr0).
    replace (frac_digits fuel 0) with (@nil N) by (by destruct fuel).
    split; [constructor|]. rewrite Hr0. reflexivity.
  - destruct fuel as [|fuel]; [lia|]. cbn [frac_digits].
    destruct (Qeq_bool r 0) eqn:E.
    { apply Qeq_bool_iff in E. split; [constructor|]. rewrite E. reflexivity. }
    set (p := (10 ^ Z.of_nat k)%Z).
    assert (Hp : (0 < p)%Z) by (apply Z.pow_pos_nonneg; lia).
    assert (Hr10 : r * 10 == inject_Z m / inject_Z p).
    { rewrite Hr, Qpow10_succ. unfold Qpow10. fold p. field.
      apply inject_Z_nonzero. exact Hp. }
    rewrite (Qfloor_div (r * 10) m p Hp Hr10).
    set (d := (m / p)%Z).
    assert (Hd : (0 <= d < 10)%Z).
    { subst d. split; [apply Z.div_pos; lia|].
      apply Z.div_lt_upper_bound; [lia|].
      rewrite Nat2Z.inj_succ, Z.pow_succ_r in Hm by lia. fold p in Hm. lia. }
    destruct (IH fuel (m mod p)%Z (r * 10 - inject_Z d)) as [IH1 IH2].
    + lia.
    + apply Z.mod_pos_bound. exact Hp.
    + rewrite Hr10. unfold Qpow10. fold p. subst d.
      rewrite (Z.mod_eq m p) by lia. rewrite inject_Z_minus, inject_Z_mult. field.
      apply inject_Z_nonzero. exact Hp.
    + set (ds := frac_digits fuel (r * 10 - inject_Z d)) in *.
      split.
      * constructor; [|exact IH1]. apply is_digit_digit_char. lia.
      * rewrite digits_value_cons. cbn [length]. rewrite Qpow10_succ.
        unfold digit_char.
        replace (48 + Z.to_N d - 48)%N with (Z.to_N d) by lia.
        rewrite N2Z.inj_add, N2Z.inj_mul, Z2N.id by lia.
        rewrite N2Z.inj_pow, nat_N_Z. change (Z.of_N 10) with 10%Z.
        rewrite inject_Z_plus, inject_Z_mult. fold (Qpow10 (length ds)).
        pose proof (Qpow10_pos (length ds)) as Hpos.
        set (P := Qpow10 (length ds)) in *.
        set (V := inject_Z (Z.of_N (digits_value ds))) in *.
        assert (HV : V == (r * 10 - inject_Z d) * P).
        { rewrite <- IH2. field. intros H. rewrite H in Hpos. by apply Qlt_irrefl in Hpos. }
        rewrite HV. field. intros H. rewrite H in Hpos. by apply Qlt_irrefl in Hpos.
Qed.

End Rationals.

(** *** The unit and the rounded number *)

Lemma log1024_floor_spec b :
  0 < b -> 1024 ^ log1024_floor b <= b < 1024 ^ (log1024_floor b + 1).
Proof.
  intros Hb. unfold log1024_floor.
  destruct (N.log2_spec b Hb) as [Hlo Hhi].
  change 1024 with (2 ^ 10). rewrite <- !N.pow_mul_r. split.
  - etransitivity; [|exact Hlo]. apply N.pow_le_mono_r; [lia|].
    apply N.Div0.mul_div_le.
  - eapply N.lt_le_trans; [exact Hhi|]. apply N.pow_le_mono_r; [lia|].
    pose proof (N.mul_succ_div_gt (N.log2 b) 10). lia.
Qed.

Lemma log1024_floor_small b : 0 < b < 1024 ^ 4 -> log1024_floor b < 4.
Proof.
  intros [Hb Hlt]. unfold log1024_floor.
  apply N.Div0.div_lt_upper_bound.
  apply N.log2_lt_pow2; [exact Hb|]. exact Hlt.
Qed.

(** C4, as stated, does not hold: from 1024^4 bytes on, the list of units is
    exhausted and the text ends in the word undefined. *)
Lemma formatBytes_terabytes_no_unit :
  formatBytes (32 * 1024 ^ 4) default_decimals = Normal (lit "32 undefined") /\
  sizes !! N.to_nat (log1024_floor (32 * 1024 ^ 4)) = None /\
  (forall unit, unit ∈ sizes -> ~ (lit " " ++ unit) `suffix_of` (lit "32 undefined")).
Proof.
  split; [vm_compute; reflexivity|]. split; [vm_compute; reflexivity|].
  intros unit Hin [pre Hpre].
  unfold sizes in Hin.
  repeat (apply elem_of_cons in Hin as [->|Hin]);
    [..|by apply elem_of_nil in Hin];
    apply (f_equal (@rev N)) in Hpre; rewrite rev_app_distr in Hpre;
    vm_compute in Hpre; discriminate Hpre.
Qed.

Section FormatBytesProps.

Local Open Scope Q_scope.

Lemma toFixed_two (x : Q) :
  toFixed x 2 =
    let n := Z.to_N (Qfloor (x * Qpow10 2 + (1 # 2))) in
    Normal (int_to_string (n / 100)%N ++ ch "." :: digits_of 2 n).
Proof. reflexivity. Qed.

Lemma inject_N_div_mod (n : N) :
  inject_Z (Z.of_N (n / 100)%N) + inject_Z (Z.of_N (n mod 100)%N) / Qpow10 2
  == inject_Z (Z.of_N n) / 100.
Proof.
  rewrite (N.div_mod n 100) at 3 by lia.
  rewrite N2Z.inj_add, N2Z.inj_mul, inject_Z_plus, inject_Z_mult.
  change (Qpow10 2) with 100. change (inject_Z (Z.of_N 100)) with 100. field.
Qed.

(** A number with two decimals, written by [toFixed], read by [parseFloat],
    written again in the concatenation and read back, is still that number. *)
Lemma two_decimals_text (n : N) (unit : jsstring) :
  exists q0 text q,
    parseFloat (int_to_string (n / 100)%N ++ ch "." :: digits_of 2 n) = Some q0 /\
    Number_toString (Some q0) = text /\
    Forall (fun c => is_digit c = true \/ c = ch ".") text /\
    parseFloat (text ++ lit " " ++ unit) = Some q /\
    q == inject_Z (Z.of_N n) / 100.
Proof.
  destruct (int_to_string_spec (n / 100)%N) as (Hne & Hval & Hdig).
  pose proof (digits_of_digits 2 n) as Hfd.
  set (ip := int_to_string (n / 100)%N) in *.
  set (fp := digits_of 2 n) in *.
  assert (Hparse : parseFloat (ip ++ ch "." :: fp) = Some (decimal_value ip fp)).
  { rewrite <- (app_nil_r fp) at 1. by apply parseFloat_decimal. }
  assert (Hq0 : decimal_value ip fp == inject_Z (Z.of_N n) / 100).
  { unfold decimal_value. subst fp. rewrite Hval, digits_of_value, digits_of_length.
    apply inject_N_div_mod. }
  set (q0 := decimal_value ip fp) in *.
  assert (Hn100 : (0 <= Z.of_N n / 100)%Z) by (apply Z.div_pos; lia).
  assert (Hfloor : Qfloor q0 = (Z.of_N n / 100)%Z).
  { apply Qfloor_div; [lia|exact Hq0]. }
  assert (Hr : q0 - inject_Z (Qfloor q0) == inject_Z (Z.of_N n mod 100) / Qpow10 2).
  { rewrite Hfloor, Hq0. rewrite (Z.mod_eq (Z.of_N n) 100) by lia.
    rewrite inject_Z_minus, inject_Z_mult. change (Qpow10 2) with 100.
    change (inject_Z 100) with 100. field. }
  destruct (frac_digits_decimal 2 20 (Z.of_N n mod 100) _ ltac:(lia)
              ltac:(apply Z.mod_pos_bound; lia) Hr) as [Hds Hdv].
  set (ds := frac_digits 20 (q0 - inject_Z (Qfloor q0))) in *.
  assert (Hnn : Qle_bool 0 q0 = true).
  { apply Qle_bool_iff. rewrite Hq0. apply Qle_shift_div_l; [reflexivity|].
    rewrite Qmult_0_l. change 0 with (inject_Z 0). rewrite <- Zle_Qle. lia. }
  assert (Hip : int_to_string (Z.to_N (Qfloor q0)) = ip).
  { rewrite Hfloor. subst ip. f_equal.
    rewrite <- (N2Z.id (n / 100)). f_equal. by rewrite N2Z.inj_div. }
  exists q0, (ip ++ match ds with [] => [] | _ => ch "." :: ds end).
  destruct ds as [|d ds'] eqn:Eds.
  - exists (decimal_value ip []).
    split; [exact Hparse|]. split.
    { unfold Number_toString. rewrite Hnn. unfold nonneg_to_string.
      fold ds. rewrite Eds, Hip. reflexivity. }
    split.
    { apply Forall_app. split; [|constructor].
      eapply Forall_impl; [exact Hdig|]. intros c Hc. by left. }
    split.
    { rewrite <- app_assoc. apply parseFloat_integer; [exact Hne|exact Hdig|reflexivity]. }
    unfold decimal_value. rewrite Hval.
    transitivity (inject_Z (Z.of_N (n / 100)%N) + (q0 - inject_Z (Qfloor q0))).
    { rewrite <- Hdv. reflexivity. }
    rewrite Hfloor, N2Z.inj_div. change (Z.of_N 100) with 100%Z. ring_simplify. exact Hq0.
  - exists (decimal_value ip (d :: ds')).
    split; [exact Hparse|]. split.
    { unfold Number_toString. rewrite Hnn. unfold nonneg_to_string.
      fold ds. rewrite Eds, Hip. reflexivity. }
    split.
    { apply Forall_app. split.
      - eapply Forall_impl; [exact Hdig|]. intros c Hc. by left.
      - constructor; [by right|].
        eapply Forall_impl; [exact Hds|]. intros c Hc. by left. }
    split.
    { rewrite <- app_assoc. cbn [app].
      change (ch "." :: d :: ds' ++ lit " " ++ unit)
        with (ch "." :: (d :: ds') ++ lit " " ++ unit).
      apply parseFloat_decimal; [exact Hne|exact Hdig|exact Hds|reflexivity]. }
    unfold decimal_value. rewrite Hval, Hdv.
    rewrite Hfloor, N2Z.inj_div. change (Z.of_N 100) with 100%Z. ring_simplify. exact Hq0.
Qed.

End FormatBytesProps.

(** C4, amended: formatBytes(0) is the text 0 Bytes, and for every byte count
    from 1 up to, not including, 1024^4, formatBytes returns a number, a
    space and the unit Bytes, KB, MB or GB that the integer logarithm of the
    count in base 1024 selects; the number, read back, is within half a
    hundredth of the count divided by that power of 1024.  Numbers are exact
    rationals here. *)
Theorem formatBytes_below_terabyte (b : N) :
  0 < b < 1024 ^ 4 ->
  let i := log1024_floor b in
  formatBytes 0 default_decimals = Normal (lit "0 Bytes") /\
  1024 ^ i <= b < 1024 ^ (i + 1) /\
  exists text unit q,
    formatBytes b default_decimals = Normal (text ++ lit " " ++ unit) /\
    sizes !! N.to_nat i = Some unit /\
    Forall (fun c => is_digit c = true \/ c = ch ".") text /\
    parseFloat (text ++ lit " " ++ unit) = Some q /\
    (Qabs (q - inject_Z (Z.of_N b) / inject_Z (Z.of_N (1024 ^ i))) <= 1 # 200)%Q.
Proof.
  intros Hb i. split; [reflexivity|].
  split; [apply log1024_floor_spec; lia|].
  pose proof (log1024_floor_small b Hb) as Hi. fold i in Hi.
  assert (Hunit : exists unit, sizes !! N.to_nat i = Some unit).
  { assert (Hc : (N.to_nat i < 4)%nat) by lia.
    destruct (N.to_nat i) as [|[|[|[|k]]]]; [by eexists..|lia]. }
  destruct Hunit as [unit Hunit].
  set (x := (inject_Z (Z.of_N b) / inject_Z (Z.of_N (1024 ^ i)))%Q).
  set (n := Z.to_N (Qfloor (x * Qpow10 2 + (1 # 2))%Q)).
  destruct (two_decimals_text n unit) as (q0 & text & q & Hp0 & Hts & Htext & Hp & Hq).
  exists text, unit, q.
  split; [|split; [exact Hunit|split; [exact Htext|split; [exact Hp|]]]].
  - unfold formatBytes. destruct (N.eqb_spec b 0) as [->|_]; [lia|].
    change (default_decimals <? 0)%Z with false. cbn iota. fold i. fold x.
    unfold default_decimals. rewrite toFixed_two. fold n. cbn [cbind].
    rewrite Hp0, Hts, Hunit. reflexivity.
  - assert (Hx : (0 <= x)%Q).
    { subst x. apply Qle_shift_div_l.
      - change 0%Q with (inject_Z 0). rewrite <- Zlt_Qlt.
        pose proof (N.pow_nonzero 1024 i). lia.
      - rewrite Qmult_0_l. change 0%Q with (inject_Z 0). rewrite <- Zle_Qle. lia. }
    pose proof (Qfloor_le (x * Qpow10 2 + (1 # 2))%Q) as Hlo.
    pose proof (Qlt_floor (x * Qpow10 2 + (1 # 2))%Q) as Hhi.
    assert (Hn : Z.of_N n = Qfloor (x * Qpow10 2 + (1 # 2))%Q).
    { subst n. apply Z2N.id.
      assert (H0 : (inject_Z 0 < inject_Z (Qfloor (x * Qpow10 2 + (1 # 2)) + 1))%Q).
      { eapply Qle_lt_trans; [|exact Hhi]. change (Qpow10 2) with 100%Q.
        change (inject_Z 0) with 0%Q. lra. }
      rewrite <- Zlt_Qlt in H0. lia. }
    rewrite <- Hn in Hlo, Hhi. rewrite inject_Z_plus in Hhi.
    change (Qpow10 2) with 100%Q in Hlo, Hhi. change (inject_Z 1) with 1%Q in Hhi.
    apply Qabs_Qle_condition. rewrite Hq.
    set (N' := inject_Z (Z.of_N n)) in *. clearbody N' x.
    assert (Hd : (N' / 100 == N' * (1 # 100))%Q) by field.
    rewrite Hd. split; lra.
Qed.

Lemma formatBytes_below_terabyte_witness :
  exists text unit q,
    formatBytes 1536 default_decimals = Normal (text ++ lit " " ++ unit) /\
    sizes !! N.to_nat (log1024_floor 1536) = Some unit /\
    Forall (fun c => is_digit c = true \/ c = ch ".") text /\
    parseFloat (text ++ lit " " ++ unit) = Some q /\
    (Qabs (q - inject_Z (Z.of_N 1536) / inject_Z (Z.of_N (1024 ^ log1024_floor 1536)))
       <= 1 # 200)%Q.
Proof.
  apply (formatBytes_below_terabyte 1536). vm_compute. split; reflexivity.
Defined.



(** * Further properties *)

(** ** Patterns *)

Lemma match_here_plus_cons e p l c s :
  match_here e ((p, Plus) :: l) (c :: s)
  = p c && (match_here e ((p, Plus) :: l) s || match_here e l s).
Proof. reflexivity. Qed.

(** A class taken one or more times matches a non-empty run of the class,
    followed by a match of the rest of the pattern. *)
Lemma match_here_plus e (p : cls) l s :
  match_here e ((p, Plus) :: l) s = true <->
  exists u r, s = u ++ r /\ u <> [] /\ Forall (fun c => p c = true) u /\
              match_here e l r = true.
Proof.
  induction s as [|c s IH].
  - split; [discriminate|]. intros (u & r & H & Hu & _). by destruct u.
  - rewrite match_here_plus_cons, andb_true_iff, orb_true_iff, IH. split.
    + intros [Hc [(u & r & -> & Hu & Hall & Hr)|Hr]].
      * exists (c :: u), r. repeat split; [done|by constructor|exact Hr].
      * exists [c], s. repeat split; [done|by repeat constructor|exact Hr].
    + intros (u & r & H & Hu & Hall & Hr).
      destruct u as [|c' u]; [done|]. injection H as <- ->.
      inversion Hall as [|? ? Hc Hall']; subst. split; [exact Hc|].
      destruct u as [|c'' u]; [by right|].
      left. exists (c'' :: u), r. repeat split; [done|exact Hall'|exact Hr].
Qed.

Lemma match_here_once e (p : cls) l s :
  match_here e ((p, Once) :: l) s = true <->
  exists c r, s = c :: r /\ p c = true /\ match_here e l r = true.
Proof.
  destruct s as [|c s]; simpl.
  - split; [discriminate|]. intros (? & ? & ? & _). discriminate.
  - rewrite andb_true_iff. split.
    + intros [? ?]. by exists c, s.
    + intros (? & ? & [= <- <-] & ? & ?). by split.
Qed.

Lemma match_here_end s : match_here true [] s = true <-> s = [].
Proof. destruct s; simpl; split; try done. Qed.

Lemma not_space_at_spec c : not_space_at c = true <-> email_atom c.
Proof.
  unfold not_space_at, cls_not, cls_or, is_char, is_code, email_atom.
  rewrite negb_true_iff, orb_false_iff, N.eqb_neq. reflexivity.
Qed.

Lemma word_char_spec c : customValidations.word_char c = true <-> username_char c.
Proof.
  unfold customValidations.word_char, cls_or, username_char.
  fold customValidations.digit.
  rewrite !orb_true_iff.
  change (in_range "a" "z" c = true \/ in_range "A" "Z" c = true \/
          customValidations.digit c = true \/ is_char "_" c = true
          <-> ascii_letter c \/ ascii_digit c \/ c = ch "_").
  pose proof (letter_spec c) as Hl. unfold customValidations.letter, cls_or in Hl.
  rewrite orb_true_iff in Hl. rewrite <- Hl, <- digit_spec.
  unfold is_char, is_code. rewrite N.eqb_eq. tauto.
Qed.

Lemma Forall_cls_iff (p : cls) (P : N -> Prop) (s : jsstring) :
  (forall c, p c = true <-> P c) ->
  Forall (fun c => p c = true) s <-> Forall P s.
Proof. intros H. apply Forall_iff. exact H. Qed.

(** X1: the email pattern accepts exactly the texts made of a run, an at-sign,
    a run, a dot and a run, where a run is one or more characters that are
    neither white space nor an at-sign. *)
Theorem emailRegex_shape (v : jsstring) :
  test emailRegex v = true <->
  exists u w x,
    v = u ++ [ch "@"] ++ w ++ [ch "."] ++ x /\
    u <> [] /\ w <> [] /\ x <> [] /\
    Forall email_atom u /\ Forall email_atom w /\ Forall email_atom x.
Proof.
  unfold test, emailRegex. cbn [anchor_start anchor_end atoms].
  rewrite match_here_plus. split.
  - intros (u & r1 & -> & Hu & Hau & H1).
    apply match_here_once in H1 as (c1 & r2 & -> & Hc1 & H2).
    apply match_here_plus in H2 as (w & r3 & -> & Hw & Haw & H3).
    apply match_here_once in H3 as (c2 & r4 & -> & Hc2 & H4).
    apply match_here_plus in H4 as (x & r5 & -> & Hx & Hax & H5).
    apply match_here_end in H5 as ->.
    unfold is_char, is_code in Hc1, Hc2.
    apply N.eqb_eq in Hc1 as ->. apply N.eqb_eq in Hc2 as ->.
    exists u, w, x. rewrite app_nil_r.
    repeat split; try done;
      eapply (Forall_cls_iff not_space_at email_atom); eauto using not_space_at_spec.
  - intros (u & w & x & -> & Hu & Hw & Hx & Hau & Haw & Hax).
    exists u, ([ch "@"] ++ w ++ [ch "."] ++ x).
    repeat split; [exact Hu| |].
    { by apply (Forall_cls_iff not_space_at email_atom); eauto using not_space_at_spec. }
    apply match_here_once. exists (ch "@"), (w ++ [ch "."] ++ x).
    repeat split. apply match_here_plus.
    exists w, ([ch "."] ++ x). repeat split; [exact Hw| |].
    { by apply (Forall_cls_iff not_space_at email_atom); eauto using not_space_at_spec. }
    apply match_here_once. exists (ch "."), x. repeat split.
    apply match_here_plus. exists x, []. rewrite app_nil_r.
    repeat split; [exact Hx|].
    by apply (Forall_cls_iff not_space_at email_atom); eauto using not_space_at_spec.
Qed.

(** X2: the username validator accepts exactly the non-empty texts made of
    ASCII letters, digits and underscores; its message is the same either
    way. *)
Theorem username_rules (v : jsstring) :
  (valid (customValidations.username v) = true <->
     v <> [] /\ Forall username_char v) /\
  message (customValidations.username v) = customValidations.msg_username.
Proof.
  split; [|reflexivity].
  unfold customValidations.username, customValidations.username_regex, test.
  cbn [valid anchor_start anchor_end atoms].
  rewrite match_here_plus. split.
  - intros (u & r & -> & Hu & Hall & Hr). apply match_here_end in Hr as ->.
    rewrite app_nil_r. split; [exact Hu|].
    by apply (Forall_cls_iff customValidations.word_char username_char);
      eauto using word_char_spec.
  - intros [Hv Hall]. exists v, []. rewrite app_nil_r. repeat split; [exact Hv|].
    by apply (Forall_cls_iff customValidations.word_char username_char);
      eauto using word_char_spec.
Qed.

(** ** escapeHtml, further *)

Lemma entity_of_plain c : html_special c = false -> entity_of c = [c].
Proof.
  unfold html_special, cls_or, is_char, is_code, entity_of.
  rewrite !orb_false_iff. intros (-> & -> & -> & -> & ->). reflexivity.
Qed.

Lemma entity_of_special c : html_special c = true -> (4 <= length (entity_of c))%nat.
Proof.
  unfold html_special, cls_or, is_char, is_code, entity_of.
  destruct (c =? ch "&"); [simpl; lia|].
  destruct (c =? ch "<"); [simpl; lia|].
  destruct (c =? ch ">"); [simpl; lia|].
  destruct (c =? dquote); [simpl; lia|].
  destruct (c =? ch "'"); [simpl; lia|]. discriminate.
Qed.

Lemma escapeHtml_app a b : escapeHtml (a ++ b) = escapeHtml a ++ escapeHtml b.
Proof.
  induction a as [|c a IH]; [reflexivity|].
  cbn [app]. rewrite !escapeHtml_cons, IH. apply app_assoc.
Qed.

Lemma escapeHtml_length s :
  (length s <= length (escapeHtml s))%nat /\
  (length (escapeHtml s) = length s -> Forall (fun c => html_special c = false) s).
Proof.
  induction s as [|c s [IH1 IH2]]; [split; [done|constructor]|].
  rewrite escapeHtml_cons, length_app. cbn [length].
  destruct (html_special c) eqn:E.
  - pose proof (entity_of_special c E). split; lia.
  - rewrite (entity_of_plain c E). cbn [length]. split; [lia|].
    intros H. constructor; [exact E|]. apply IH2. lia.
Qed.

(** X3: escaping never shortens a text, and it leaves a text unchanged exactly
    when the text holds none of the five characters. *)
Theorem escapeHtml_unchanged (s : jsstring) :
  (length s <= length (escapeHtml s))%nat /\
  (escapeHtml s = s <-> Forall (fun c => html_special c = false) s).
Proof.
  split; [apply escapeHtml_length|]. split.
  - intros H. apply escapeHtml_length. by rewrite H.
  - induction 1 as [|c s Hc _ IH]; [reflexivity|].
    rewrite escapeHtml_cons, (entity_of_plain c Hc), IH. reflexivity.
Qed.

Lemma entity_of_cases c :
  (html_special c = false /\ entity_of c = [c]) \/
  c = 38 \/ c = 60 \/ c = 62 \/ c = 34 \/ c = 39.
Proof.
  destruct (html_special c) eqn:E; [right|left; split; [done|by apply entity_of_plain]].
  unfold html_special, cls_or, is_char, is_code in E.
  rewrite !orb_true_iff, !N.eqb_eq in E. exact E.
Qed.

Lemma entity_of_inj c1 c2 r1 r2 :
  entity_of c1 ++ r1 = entity_of c2 ++ r2 -> c1 = c2 /\ r1 = r2.
Proof.
  destruct (entity_of_cases c1) as [[H1 ->]|[->|[->|[->|[->| ->]]]]];
  destruct (entity_of_cases c2) as [[H2 ->]|[->|[->|[->|[->| ->]]]]];
  intros H; vm_compute in H;
  try (split; congruence);
  exfalso; injection H; intros; subst;
  try (vm_compute in H1; discriminate H1);
  try (vm_compute in H2; discriminate H2).
Qed.

(** X4: escaping works piece by piece and loses nothing: the escaped text of a
    concatenation is the concatenation of the escaped texts, and two
    different texts never have the same escaped text. *)
Theorem escapeHtml_injective (s1 s2 : jsstring) :
  (forall a b, escapeHtml (a ++ b) = escapeHtml a ++ escapeHtml b) /\
  (escapeHtml s1 = escapeHtml s2 -> s1 = s2).
Proof.
  split; [apply escapeHtml_app|].
  revert s2. induction s1 as [|c1 s1 IH]; intros [|c2 s2] H.
  - reflexivity.
  - rewrite escapeHtml_cons in H. apply (f_equal length) in H.
    rewrite length_app in H. simpl in H.
    pose proof (proj1 (escapeHtml_length [c2])) as Hl.
    rewrite escapeHtml_cons, app_nil_r in Hl. simpl in Hl. lia.
  - rewrite escapeHtml_cons in H. apply (f_equal length) in H.
    rewrite length_app in H. simpl in H.
    pose proof (proj1 (escapeHtml_length [c1])) as Hl.
    rewrite escapeHtml_cons, app_nil_r in Hl. simpl in Hl. lia.
  - rewrite !escapeHtml_cons in H. apply entity_of_inj in H as [-> H].
    f_equal. by apply IH.
Qed.

Lemma escapeHtml_injective_witness :
  escapeHtml (lit "a" ++ lit "<b") = escapeHtml (lit "a") ++ escapeHtml (lit "<b").
Proof. apply (escapeHtml_injective [] []). Defined.

(** ** validateField, further *)









Lemma run_rules_update f ok m :
  run_rules (updateFieldValidationState f ok m) = run_rules f.
Proof. by destruct ok. Qed.

(** X6: validating a field a second time changes nothing: the verdict is the
    same and the field is left exactly as the first validation left it. *)
Theorem validateField_idempotent (f : Field) :
  (r <-- validateField f ;; validateField (snd r)) = validateField f.
Proof.
  rewrite (validateField_run_rules f).
  destruct (run_rules f) as [[ok m]|e] eqn:E; [|reflexivity].
  cbn [cbind fst snd]. rewrite validateField_run_rules, run_rules_update, E.
  cbn [cbind fst snd]. do 2 f_equal.
  destruct ok; unfold updateFieldValidationState; simpl; f_equal; set_solver.
Qed.



(** ** setButtonLoading, further *)

(** X8: entering and then leaving the loading state leaves the button enabled.
    When the markup of the button was not empty, the call that leaves the
    state assigns the stashed markup again, so the button reads what the
    page makes of its own markup, the same markup whenever that reads back
    as it was written, and the stashed attribute is dropped.  A button with
    empty markup keeps the spinner and the stashed attribute, because the
    empty stash reads as absent. *)
Theorem setButtonLoading_restores_markup (reparse : jsstring -> jsstring)
    (b : Button) (loadingText text' : jsstring) :
  let b' := setButtonLoading reparse (setButtonLoading reparse b true loadingText)
              false text' in
  disabled b' = false /\
  (innerHTML b <> [] ->
     innerHTML b' = reparse (innerHTML b) /\
     (reparse (innerHTML b) = innerHTML b -> innerHTML b' = innerHTML b) /\
     attributes b' = delete "data-original-text" (attributes b)) /\
  (innerHTML b = [] ->
     innerHTML b' = reparse (spinner_markup ++ loadingText) /\
     attributes b' !! "data-original-text" = Some []).
Proof.
  unfold setButtonLoading. cbn [attributes innerHTML].
  rewrite lookup_insert_eq.
  destruct (innerHTML b) as [|c s] eqn:E; cbn [truthy disabled innerHTML attributes].
  - repeat split; try done. by rewrite lookup_insert_eq.
  - repeat split; try done. by rewrite delete_insert_eq.
Qed.

Lemma setButtonLoading_restores_markup_witness :
  innerHTML (setButtonLoading (fun s => s)
               (setButtonLoading (fun s => s) (mkButton (lit "Salvar") ∅ false) true
                  (lit "..."))
               false [])
  = lit "Salvar".
Proof.
  destruct (setButtonLoading_restores_markup (fun s => s)
              (mkButton (lit "Salvar") ∅ false) (lit "...") []) as (_ & H & _).
  destruct H as (H & _); [discriminate|exact H].
Defined.

(** X9: entering the loading state twice loses the markup: the second call
    stashes what the button reads after the first, the spinner, so leaving
    the loading state assigns that again and not the markup the button had
    before; this is so whenever the button reads any markup at all after
    the first call. *)
Theorem setButtonLoading_twice (reparse : jsstring -> jsstring)
    (b : Button) (text1 text2 text' : jsstring) :
  let b1 := setButtonLoading reparse b true text1 in
  let b' := setButtonLoading reparse (setButtonLoading reparse b1 true text2)
              false text' in
  innerHTML b1 <> [] ->
  innerHTML b' = reparse (innerHTML b1) /\
  attributes b' = delete "data-original-text" (attributes b) /\
  disabled b' = false.
Proof.
  unfold setButtonLoading. cbn [attributes innerHTML].
  rewrite lookup_insert_eq.
  destruct (reparse (spinner_markup ++ text1)) as [|c s] eqn:E; [done|]. intros _.
  cbn [truthy innerHTML attributes disabled].
  repeat split. by rewrite insert_insert_eq, delete_insert_eq.
Qed.

Lemma setButtonLoading_twice_witness :
  innerHTML (setButtonLoading (fun s => s)
               (setButtonLoading (fun s => s)
                  (setButtonLoading (fun s => s) (mkButton (lit "Salvar") ∅ false) true
                     (lit "a"))
                  true (lit "b"))
               false [])
  = spinner_markup ++ lit "a".
Proof.
  destruct (setButtonLoading_twice (fun s => s) (mkButton (lit "Salvar") ∅ false)
              (lit "a") (lit "b") []) as (H & _); [discriminate|exact H].
Defined.

(** ** debounce, further *)

Section DebounceMore.

Context {A : Type}.
Implicit Types (calls : list (Z * A)).





End DebounceMore.



(** ** formatBytes, further *)

Section FormatBytesMore.

Local Open Scope Q_scope.

Lemma frac_digits_zero fuel : frac_digits fuel 0 = [].
Proof. by destruct fuel. Qed.

Lemma Number_toString_integer (q : Q) (b : N) :
  q == inject_Z (Z.of_N b) -> Number_toString (Some q) = int_to_string b.
Proof.
  intros Hq. unfold Number_toString.
  assert (Hnn : Qle_bool 0 q = true).
  { apply Qle_bool_iff. rewrite Hq. change 0 with (inject_Z 0).
    rewrite <- Zle_Qle. lia. }
  rewrite Hnn. unfold nonneg_to_string.
  assert (Hf : Qfloor q = Z.of_N b).
  { apply Qfloor_unique; rewrite Hq.
    - apply Qle_refl.
    - rewrite <- Zlt_Qlt. lia. }
  rewrite Hf, N2Z.id.
  rewrite (frac_digits_proper 20 (q - inject_Z (Z.of_N b)) 0) by (rewrite Hq; ring).
  rewrite frac_digits_zero. apply app_nil_r.
Qed.

Lemma digits_of_multiple k (b : N) :
  digits_value (digits_of k (b * 10 ^ N.of_nat k)) = 0%N.
Proof. rewrite digits_of_value. apply N.Div0.mod_mul. Qed.

Lemma toFixed_integer (b : N) (dm : Z) :
  (0 <= dm <= 100)%Z ->
  exists s q, toFixed (inject_Z (Z.of_N b)) dm = Normal s /\
              parseFloat s = Some q /\ q == inject_Z (Z.of_N b).
Proof.
  intros Hdm. unfold toFixed.
  destruct (Z.ltb_spec dm 0); [lia|]. destruct (Z.ltb_spec 100 dm); [lia|].
  cbn [orb]. set (k := Z.to_nat dm).
  assert (Hn : Z.to_N (Qfloor (inject_Z (Z.of_N b) * Qpow10 k + (1 # 2)))
               = (b * 10 ^ N.of_nat k)%N).
  { rewrite (Qfloor_unique _ (Z.of_N b * 10 ^ Z.of_nat k)%Z).
    - rewrite <- (N2Z.id (b * 10 ^ N.of_nat k)). f_equal.
      rewrite N2Z.inj_mul, N2Z.inj_pow, nat_N_Z. reflexivity.
    - unfold Qpow10. rewrite <- inject_Z_mult.
      set (z := inject_Z (Z.of_N b * 10 ^ Z.of_nat k)). lra.
    - unfold Qpow10. rewrite inject_Z_plus, <- inject_Z_mult.
      set (z := inject_Z (Z.of_N b * 10 ^ Z.of_nat k)).
      change (inject_Z 1) with 1. lra. }
  rewrite Hn.
  assert (Hdiv : (b * 10 ^ N.of_nat k / 10 ^ N.of_nat k)%N = b).
  { apply N.div_mul. apply N.pow_nonzero. lia. }
  rewrite Hdiv.
  destruct (int_to_string_spec b) as (Hne & Hval & Hdig).
  destruct k as [|k'] eqn:Ek.
  - exists (int_to_string b ++ []), (decimal_value (int_to_string b) []).
    split; [reflexivity|]. split.
    + apply parseFloat_integer; [exact Hne|exact Hdig|reflexivity].
    + unfold decimal_value. rewrite Hval.
      change (inject_Z (Z.of_N (digits_value []))) with 0. unfold Qdiv. ring.
  - set (fp := digits_of (S k') (b * 10 ^ N.of_nat (S k'))).
    exists (int_to_string b ++ ch "." :: fp), (decimal_value (int_to_string b) fp).
    split; [reflexivity|]. split.
    + rewrite <- (app_nil_r fp) at 1.
      apply parseFloat_decimal; [exact Hne|exact Hdig|apply digits_of_digits|reflexivity].
    + unfold decimal_value. rewrite Hval. subst fp. rewrite digits_of_multiple.
      change (inject_Z (Z.of_N 0)) with 0. unfold Qdiv. ring.
Qed.

End FormatBytesMore.

(** X11: below 1024 bytes nothing is rounded: for every number of decimals up
    to 100, formatBytes gives the byte count itself followed by the unit
    Bytes. *)
Theorem formatBytes_bytes_exact (b : N) (decimals : Z) :
  0 < b < 1024 -> (decimals <= 100)%Z ->
  formatBytes b decimals = Normal (int_to_string b ++ lit " Bytes").
Proof.
  intros [Hb Hlt] Hd. unfold formatBytes.
  destruct (N.eqb_spec b 0); [lia|].
  assert (Hi : log1024_floor b = 0).
  { unfold log1024_floor. apply N.div_small.
    apply N.log2_lt_pow2; [exact Hb|]. simpl. lia. }
  rewrite Hi. cbv zeta.
  set (dm := if (decimals <? 0)%Z then 0%Z else decimals).
  assert (Hdm : (0 <= dm <= 100)%Z) by (subst dm; destruct (Z.ltb_spec decimals 0); lia).
  assert (Hx : (inject_Z (Z.of_N b) / inject_Z (Z.of_N (1024 ^ 0)) == inject_Z (Z.of_N b))%Q).
  { change (inject_Z (Z.of_N (1024 ^ 0))) with 1%Q. unfold Qdiv.
    change (/ 1)%Q with 1%Q. ring. }
  destruct (toFixed_integer b dm Hdm) as (s & q & Hs & Hp & Hq).
  assert (Hs' : toFixed (inject_Z (Z.of_N b) / inject_Z (Z.of_N (1024 ^ 0)))%Q dm = Normal s).
  { rewrite <- Hs. unfold toFixed. destruct ((dm <? 0)%Z || (100 <? dm)%Z); [reflexivity|].
    cbv zeta.
    rewrite (Qfloor_comp _ (inject_Z (Z.of_N b) * Qpow10 (Z.to_nat dm) + (1 # 2))%Q)
      by (by rewrite Hx).
    reflexivity. }
  rewrite Hs'. cbn [cbind]. rewrite Hp, (Number_toString_integer q b Hq).
  reflexivity.
Qed.

Lemma formatBytes_bytes_exact_witness :
  formatBytes 512 7 = Normal (int_to_string 512 ++ lit " Bytes").
Proof. apply (formatBytes_bytes_exact 512 7); [split; reflexivity|lia]. Defined.

Lemma toFixed_range (x : Q) (dm : Z) :
  (dm < 0 \/ 100 < dm)%Z -> toFixed x dm = Throw RangeError.
Proof.
  intros H. unfold toFixed.
  destruct (Z.ltb_spec dm 0); [reflexivity|].
  destruct (Z.ltb_spec 100 dm); [reflexivity|lia].
Qed.

Lemma toFixed_normal (x : Q) (dm : Z) :
  (0 <= dm <= 100)%Z -> exists s, toFixed x dm = Normal s.
Proof.
  intros H. unfold toFixed.
  destruct (Z.ltb_spec dm 0); [lia|].
  destruct (Z.ltb_spec 100 dm); [lia|]. by eexists.
Qed.

(** X12: formatBytes throws exactly when the byte count is not zero and more
    than 100 decimals are asked for, with a RangeError; a negative number of
    decimals counts as zero, and no number of decimals changes the text for
    zero bytes. *)
Theorem formatBytes_decimals_edges (b : N) (decimals : Z) :
  ((exists e, formatBytes b decimals = Throw e) <-> b <> 0 /\ (100 < decimals)%Z) /\
  (b <> 0 -> (100 < decimals)%Z -> formatBytes b decimals = Throw RangeError) /\
  ((decimals < 0)%Z -> formatBytes b decimals = formatBytes b 0) /\
  formatBytes 0 decimals = Normal (lit "0 Bytes").
Proof.
  assert (H0 : formatBytes 0 decimals = Normal (lit "0 Bytes")) by reflexivity.
  assert (Hbig : b <> 0 -> (100 < decimals)%Z -> formatBytes b decimals = Throw RangeError).
  { intros Hb Hd. unfold formatBytes.
    destruct (N.eqb_spec b 0); [done|]. cbv zeta.
    destruct (Z.ltb_spec decimals 0); [lia|].
    by rewrite toFixed_range by lia. }
  assert (Hok : b = 0 \/ (decimals <= 100)%Z -> exists s, formatBytes b decimals = Normal s).
  { intros Hd. unfold formatBytes.
    destruct (N.eqb_spec b 0); [by eexists|]. cbv zeta.
    set (dm := if (decimals <? 0)%Z then 0%Z else decimals).
    assert (Hdm : (0 <= dm <= 100)%Z)
      by (subst dm; destruct (Z.ltb_spec decimals 0); lia).
    destruct (toFixed_normal (inject_Z (Z.of_N b) /
                inject_Z (Z.of_N (1024 ^ log1024_floor b)))%Q dm Hdm) as [s ->].
    by eexists. }
  split; [|split; [exact Hbig|split; [|exact H0]]].
  - split.
    + intros [e He].
      destruct (N.eq_dec b 0) as [Hb|Hb];
        [destruct Hok as [s Hs]; [by left|congruence]|].
      split; [exact Hb|].
      destruct (Z.le_gt_cases decimals 100) as [Hd|Hd]; [|lia].
      destruct Hok as [s Hs]; [by right|congruence].
    + intros [Hb Hd]. exists RangeError. by apply Hbig.
  - intros Hneg. unfold formatBytes.
    destruct (Z.ltb_spec decimals 0); [|lia]. reflexivity.
Qed.
(** ** validateForm *)

Lemma field_throws_dec ff : field_throws ff \/ ~ field_throws ff.
Proof.
  unfold field_throws.
  destruct (check_custom_cases (as_field ∅ ff) [] (true, []))
    as [[H _]|[[H _]|[H _]]]; tauto.
Qed.

Lemma validate_in_form_throws fb ff :
  field_throws ff -> validate_in_form fb ff = Throw TypeError.
Proof.
  intros Ht. unfold validate_in_form.
  destruct (validateField_throws (as_field fb ff)) as (Hthrow & _).
  by rewrite Hthrow.
Qed.

Lemma run_rules_no_throw ff :
  ~ field_throws ff ->
  forms.run_rules (as_field ∅ ff) = Normal (passes ff, message_of ff).
Proof.
  intros Hno. unfold passes, message_of.
  destruct (forms.run_rules (as_field ∅ ff)) as [[ok msg]|e] eqn:Hr; [reflexivity|].
  exfalso. apply Hno.
  destruct (validateField_throws (as_field ∅ ff)) as (_ & _ & Honly).
  apply (Honly e). rewrite validateField_run_rules. by rewrite Hr.
Qed.

Lemma validate_in_form_spec fb ff :
  ~ field_throws ff ->
  validate_in_form fb ff
  = Normal (passes ff, marked ff, <[ff_parent ff := feedback_of ff]> fb).
Proof.
  intros Hno. unfold validate_in_form. rewrite validateField_run_rules.
  change (forms.run_rules (as_field fb ff)) with (forms.run_rules (as_field ∅ ff)).
  rewrite (run_rules_no_throw ff Hno). cbn [cbind fst snd].
  unfold marked, feedback_of. by destruct (passes ff).
Qed.

Lemma validate_each_all fields : forall isValid done fb,
  (forall ff, ff ∈ fields -> ~ field_throws ff) ->
  validate_each isValid done fields fb =
    (Normal (isValid && forallb passes fields), done ++ map marked fields,
     fold_left (fun fb ff => <[ff_parent ff := feedback_of ff]> fb) fields fb).
Proof.
  induction fields as [|ff fields IH]; intros isValid done fb Hno.
  - cbn [validate_each fold_left forallb map]. by rewrite andb_true_r, app_nil_r.
  - cbn [validate_each fold_left forallb map].
    rewrite validate_in_form_spec by (apply Hno, elem_of_cons; by left).
    rewrite IH by (intros x Hx; apply Hno, elem_of_cons; by right).
    rewrite <- app_assoc. cbn [app]. by destruct (passes ff), isValid.
Qed.

Lemma validate_each_throws pre : forall ff post isValid done fb,
  (forall x, x ∈ pre -> ~ field_throws x) -> field_throws ff ->
  validate_each isValid done (pre ++ ff :: post) fb =
    (Throw TypeError, done ++ map marked pre ++ ff :: post,
     fold_left (fun fb ff => <[ff_parent ff := feedback_of ff]> fb) pre fb).
Proof.
  induction pre as [|x pre IH]; intros ff post isValid done fb Hno Ht.
  - cbn [app validate_each fold_left map]. by rewrite validate_in_form_throws.
  - cbn [app validate_each fold_left map].
    rewrite validate_in_form_spec by (apply Hno, elem_of_cons; by left).
    rewrite IH by (first [exact Ht|intros y Hy; apply Hno, elem_of_cons; by right]).
    by rewrite <- app_assoc.
Qed.

Lemma validateForm_all form :
  (forall ff, ff ∈ form_fields form -> ~ field_throws ff) ->
  validateForm form =
    (Normal (forallb passes (form_fields form)),
     mkForm (map marked (form_fields form))
       (fold_left (fun fb ff => <[ff_parent ff := feedback_of ff]> fb)
          (form_fields form) (feedbacks form))).
Proof. intros Hno. unfold validateForm. by rewrite validate_each_all. Qed.


Lemma marked_marked_as ff : marked_as ff (marked ff).
Proof.
  unfold marked_as, marked. cbn [ff_classList ff_value ff_type ff_attrs ff_parent].
  destruct (passes ff); repeat split; try done; set_solver.
Qed.

Lemma Forall2_marked fields : Forall2 marked_as fields (map marked fields).
Proof.
  induction fields as [|ff fields IH]; constructor; [apply marked_marked_as|exact IH].
Qed.

(** X13: validateForm visits the fields in their order and does not stop at
    one that fails.  When the validator of no field throws, it returns true
    exactly when every field passes its own rules, every field ends up
    marked by its own verdict with its value, type and attributes
    untouched, and the submit listener prevents the submission, and stops
    its propagation, exactly when validateForm returns false.  When the kind
    of a field names a member of Object.prototype that throws, validateForm
    throws a TypeError at the first such field: the fields before it are
    marked, that field and the ones after it are left as they were, and the
    submit listener does not prevent the submission. *)
Theorem validateForm_all_fields (form : Form) (e : SubmitEvent) :
  let r := fst (validateForm form) in
  let form' := snd (validateForm form) in
  ((forall ff, ff ∈ form_fields form -> ~ field_throws ff) ->
     (exists ok, r = Normal ok /\
        (ok = true <-> forall ff, ff ∈ form_fields form -> passes ff = true) /\
        fst (on_submit form e) = (if ok then e else mkSubmitEvent true true)) /\
     Forall2 marked_as (form_fields form) (form_fields form')) /\
  (forall pre ff post, form_fields form = pre ++ ff :: post ->
     (forall x, x ∈ pre -> ~ field_throws x) -> field_throws ff ->
     r = Throw TypeError /\
     fst (on_submit form e) = e /\
     exists pre', form_fields form' = pre' ++ ff :: post /\
                  Forall2 marked_as pre pre') /\
  snd (on_submit form e) = form'.
Proof.
  intros r form'. subst r form'. split; [|split].
  - intros Hno. unfold on_submit. rewrite (validateForm_all form Hno).
    cbn [fst snd form_fields]. split; [|apply Forall2_marked].
    exists (forallb passes (form_fields form)). split; [reflexivity|]. split.
    + rewrite forallb_forall. split; intros H ff Hff; apply H; by apply list_elem_of_In.
    + by destruct (forallb passes (form_fields form)).
  - intros pre ff post Hfields Hno Ht. unfold on_submit, validateForm.
    rewrite Hfields, (validate_each_throws pre ff post _ _ _ Hno Ht).
    cbn [fst snd form_fields app]. repeat split.
    exists (map marked pre). split; [reflexivity|apply Forall2_marked].
  - unfold on_submit. destruct (validateForm form) as [[ok|e0] form'']; cbn [fst snd];
      [by destruct ok|reflexivity].
Qed.

Lemma validateForm_all_fields_witness :
  let first := mkFormField [] (lit "text") (list_to_map [("required", [])]) ∅ 0 in
  let second := mkFormField [] (lit "text")
                  (list_to_map [("data-validate", lit "valueOf")]) ∅ 1 in
  let form := mkForm [first; second] ∅ in
  fst (validateForm form) = Throw TypeError /\
  fst (on_submit form (mkSubmitEvent false false)) = mkSubmitEvent false false.
Proof.
  intros first second form.
  destruct (validateForm_all_fields form (mkSubmitEvent false false))
    as (_ & H & _).
  destruct (H [first] second [] eq_refl) as (Hr & He & _).
  - intros x Hx%list_elem_of_singleton (k & Hk & _). subst x.
    vm_compute in Hk. discriminate Hk.
  - exists (lit "valueOf"). split; [reflexivity|].
    apply (bool_decide_unpack _). vm_compute. exact I.
  - by split.
Defined.



(** ** The character counter *)

(** X15: after every update the counter carries exactly one of text-warning
    and text-muted: text-warning when the maximum length is a number and
    fewer than 50 characters remain, text-muted otherwise, in particular when
    the maximum length is not a number; its other classes are kept.  Its
    text gives the length and the maximum, written with all its digits when
    it is at most 2^53 in absolute value. *)
Theorem updateCharacterCounter_classes (v : jsstring) (c : Counter) (maxLength : option Z) :
  let c' := updateCharacterCounter v c maxLength in
  let warn := exists m, maxLength = Some m /\ (m - Z.of_nat (length v) < 50)%Z in
  ("text-warning" ∈ counter_classes c' <-> warn) /\
  ("text-muted" ∈ counter_classes c' <-> ~ warn) /\
  (forall k : string, k <> "text-warning" -> k <> "text-muted" ->
     (k ∈ counter_classes c' <-> k ∈ counter_classes c)) /\
  ((forall m, maxLength = Some m -> (Z.abs m <= 2 ^ 53)%Z) ->
   counter_text c' = Z_to_string (Z.of_nat (length v)) ++ lit "/"
                     ++ number_text maxLength ++ lit " caracteres").
Proof.
  intros c' warn. subst c' warn. unfold updateCharacterCounter.
  destruct maxLength as [m|]; cbn [option_map num_gt].
  - destruct (Z.ltb_spec (m - Z.of_nat (length v)) 50) as [H|H]; cbn [counter_classes counter_text].
    + assert (Hw : exists m0, Some m = Some m0 /\ (m0 - Z.of_nat (length v) < 50)%Z)
        by (by exists m).
      repeat split; try done; try set_solver.
    + assert (Hw : ~ exists m0, Some m = Some m0 /\ (m0 - Z.of_nat (length v) < 50)%Z)
        by (intros (m0 & [= <-] & ?); lia).
      repeat split; try done; try set_solver.
  - cbn [counter_classes counter_text].
    assert (Hw : ~ exists m0 : Z, None = Some m0 /\ (m0 - Z.of_nat (length v) < 50)%Z)
      by (intros (m0 & ? & _); discriminate).
    repeat split; try done; try set_solver.
Qed.

(** ** The scroll observer *)

Lemma observe_entry_intersecting card :
  let card' := observe_entry card true in
  (ready card -> animations card' = S (animations card)) /\
  (~ ready card -> animations card' = animations card) /\
  ~ ready card' /\
  card_classes card' = card_classes card ∪ {["fade-in"]}.
Proof.
  unfold ready, observe_entry.
  destruct (decide ("stat-card" ∈ card_classes card ∪ {["fade-in"]})) as [Hs|Hs].
  - rewrite (bool_decide_eq_true_2 _ Hs).
    assert (Hs' : "stat-card" ∈ card_classes card) by set_solver.
    destruct (card_counter card) as [a|].
    + destruct (a !! "data-animated") as [x|] eqn:Ea.
      * rewrite bool_decide_eq_true_2 by eauto. cbn.
        repeat split; try done.
        -- intros (_ & a' & [= <-] & Ha). congruence.
        -- intros (_ & a' & [= <-] & Ha). congruence.
      * rewrite bool_decide_eq_false_2 by (intros [? ?]; congruence). cbn.
        repeat split; try done.
        -- intros H. exfalso. apply H. split; [done|]. by exists a.
        -- intros (_ & a' & [= <-] & Ha). by rewrite lookup_insert_eq in Ha.
    + cbn. repeat split; try done.
      * intros (_ & a' & Ha & _). discriminate Ha.
      * intros (_ & a' & Ha & _). discriminate Ha.
  - rewrite (bool_decide_eq_false_2 _ Hs). cbn.
    repeat split; try done.
    + intros [H _]. exfalso. apply Hs. set_solver.
    + intros [H _]. by apply Hs.
Qed.

(** X16: however often an observed element enters the viewport, its counter is
    animated at most once: exactly once when the element is a stat card whose
    counter does not carry the guard attribute yet and some entry reports it
    as intersecting, and never otherwise; afterwards the guard is set.  The
    element gets the class fade-in with the first intersecting entry and
    keeps its other classes. *)
Theorem observe_entries_once (entries : list bool) : forall card : Card,
  let card' := observe_entries card entries in
  (ready card -> true ∈ entries -> animations card' = S (animations card)) /\
  (~ (ready card /\ true ∈ entries) -> animations card' = animations card) /\
  (true ∈ entries -> ~ ready card') /\
  (forall k : string, k ∈ card_classes card' <->
     k ∈ card_classes card \/ (k = "fade-in" /\ true ∈ entries)).
Proof.
  unfold observe_entries.
  induction entries as [|b entries IH]; intros card; cbn [fold_left].
  - repeat split; try done.
    + intros _ H. by apply elem_of_nil in H.
    + intros H. by apply elem_of_nil in H.
    + intros H. by left.
    + intros [H|[_ H]]; [done|by apply elem_of_nil in H].
  - destruct b.
    + destruct (observe_entry_intersecting card) as (Hr & Hn & Hafter & Hcl).
      destruct (IH (observe_entry card true)) as (_ & IH2 & IH3 & IH4).
      assert (Hin : true ∈ true :: entries) by (apply elem_of_cons; left; reflexivity).
      assert (Hstay : animations (fold_left observe_entry entries (observe_entry card true))
                      = animations (observe_entry card true))
        by (apply IH2; intros [? _]; done).
      repeat split.
      * intros Hready _. rewrite Hstay. by apply Hr.
      * intros Hnot. rewrite Hstay. apply Hn. intros Hready. apply Hnot. by split.
      * intros _. destruct (decide (true ∈ entries)) as [He|He]; [by apply IH3|].
        intros Hready.
        assert (Hsame : fold_left observe_entry entries (observe_entry card true)
                        = observe_entry card true).
        { clear -He. generalize (observe_entry card true).
          induction entries as [|[] entries IH']; intros c; [done| |].
          - exfalso. apply He. apply elem_of_cons. by left.
          - cbn [fold_left]. apply IH'. intros H. apply He. apply elem_of_cons; right; assumption. }
        rewrite Hsame in Hready. by apply Hafter.
      * rewrite IH4, Hcl. set_solver.
      * rewrite IH4, Hcl. set_solver.
    + change (observe_entry card false) with card.
      destruct (IH card) as (IH1 & IH2 & IH3 & IH4).
      repeat split.
      * intros Hready Hin. apply IH1; [done|].
        apply elem_of_cons in Hin as [Hin|Hin]; [discriminate|done].
      * intros Hnot. apply IH2. intros [Hready Hin]. apply Hnot. split; [done|].
        apply elem_of_cons; right; assumption.
      * intros Hin. apply IH3.
        apply elem_of_cons in Hin as [Hin|Hin]; [discriminate|done].
      * rewrite IH4. intros [H|[-> H]]; [by left|right; split; [done|]].
        apply elem_of_cons; right; assumption.
      * rewrite IH4. intros [H|[-> H]]; [by left|right; split; [done|]].
        apply elem_of_cons in H as [H|H]; [discriminate|done].
Qed.

Lemma observe_entries_once_witness :
  animations (observe_entries
    (mkCard {["stat-card"]} (Some ∅) 0) [false; true; false; true]) = 1%nat.
Proof.
  apply (observe_entries_once [false; true; false; true]
           (mkCard {["stat-card"]} (Some ∅) 0)).
  - split; [set_solver|]. by exists ∅.
  - set_solver.
Defined.

(** ** Toasts *)

Lemma earliest_timer_spec l x :
  earliest_timer l = Some x ->
  x ∈ l /\ forall y, y ∈ l -> (fst (snd x) <= fst (snd y))%Z.
Proof.
  revert x. induction l as [|t l IH]; intros x; [discriminate|].
  cbn [earliest_timer]. destruct (earliest_timer l) as [t'|] eqn:E.
  - destruct (IH t' eq_refl) as [Hin Hmin].
    destruct (Z.ltb_spec (fst (snd t')) (fst (snd t))) as [Hlt|Hge]; intros [= <-].
    + split; [apply elem_of_cons; by right|].
      intros y Hy. apply elem_of_cons in Hy as [->|Hy]; [lia|by apply Hmin].
    + split; [apply elem_of_cons; by left|].
      intros y Hy. apply elem_of_cons in Hy as [->|Hy]; [lia|].
      specialize (Hmin y Hy). lia.
  - intros [= <-]. destruct l as [|t' l]; [|cbn in E; by repeat case_match].
    split; [apply elem_of_cons; by left|].
    intros y Hy. apply elem_of_cons in Hy as [->|Hy]; [lia|by apply elem_of_nil in Hy].
Qed.

Lemma earliest_timer_none l : earliest_timer l = None -> l = [].
Proof. destruct l as [|t l]; [done|]. cbn. by repeat case_match. Qed.

Lemma timers_weight_app l1 l2 :
  timers_weight (l1 ++ l2) = (timers_weight l1 + timers_weight l2)%nat.
Proof.
  unfold timers_weight. induction l1 as [|t l1 IH]; [done|].
  cbn [app map sum_list]. rewrite IH. lia.
Qed.

Lemma timers_weight_cons t l :
  timers_weight (t :: l) = (task_weight (snd (snd t)) + timers_weight l)%nat.
Proof. reflexivity. Qed.

Lemma timers_weight_filter id l :
  (timers_weight (filter (fun t => fst t ≠ id) l) <= timers_weight l)%nat.
Proof.
  induction l as [|u l IH]; [done|].
  destruct (decide (fst u ≠ id)).
  - rewrite filter_cons_True, !timers_weight_cons by done. lia.
  - rewrite filter_cons_False, timers_weight_cons by done. lia.
Qed.

Lemma timers_weight_filter_out id l x :
  x ∈ l -> fst x = id ->
  (timers_weight (filter (fun t => fst t ≠ id) l) + task_weight (snd (snd x))
   <= timers_weight l)%nat.
Proof.
  intros Hin Hid. induction l as [|t l IH]; [by apply elem_of_nil in Hin|].
  rewrite timers_weight_cons.
  destruct (decide (fst t ≠ id)) as [Hne|He].
  - rewrite filter_cons_True, timers_weight_cons by done.
    apply elem_of_cons in Hin as [->|Hin]; [done|]. specialize (IH Hin). lia.
  - rewrite filter_cons_False by done.
    apply elem_of_cons in Hin as [->|Hin].
    + pose proof (timers_weight_filter id l). lia.
    + specialize (IH Hin). lia.
Qed.

Lemma page_step_weight T w w' :
  page_step T w = Some w' -> (page_weight w' < page_weight w)%nat.
Proof.
  unfold page_step.
  destruct (earliest_timer (page_timers w)) as [[id [due k]]|] eqn:E; [|discriminate].
  destruct (earliest_timer_spec _ _ E) as [Hin _].
  destruct (due <=? T)%Z; [|discriminate]. intros [= <-].
  pose proof (timers_weight_filter_out id (page_timers w) _ Hin eq_refl) as Hw.
  cbn [snd] in Hw. unfold page_weight, take_timer.
  destruct k as [t|t|t]; cbn [run_task task_weight] in *.
  - unfold toast_add_class. cbn [page_timers]. lia.
  - unfold removeToast, page_setTimeout, toast_add_class. cbn [page_timers].
    rewrite timers_weight_app. unfold timers_weight at 2. cbn. lia.
  - case_match; cbn [page_timers]; lia.
Qed.

Lemma page_run_done T fuel : forall w,
  (page_weight w <= fuel)%nat -> page_step T (page_run fuel T w) = None.
Proof.
  induction fuel as [|fuel IH]; intros w Hw.
  - cbn [page_run]. destruct (page_step T w) as [w'|] eqn:E; [|done].
    apply page_step_weight in E. lia.
  - cbn [page_run]. destruct (page_step T w) as [w'|] eqn:E; [|exact E].
    apply IH. apply page_step_weight in E. lia.
Qed.

(** When the loop has nothing left to run, every pending timer is due after
    [T]. *)
Lemma page_step_none T w x :
  page_step T w = None -> x ∈ page_timers w -> (T < fst (snd x))%Z.
Proof.
  unfold page_step.
  destruct (earliest_timer (page_timers w)) as [[id [due k]]|] eqn:E.
  - destruct (earliest_timer_spec _ _ E) as [_ Hmin].
    destruct (Z.leb_spec due T); [discriminate|]. intros _ Hx.
    specialize (Hmin x Hx). cbn in Hmin. lia.
  - apply earliest_timer_none in E. rewrite E. intros _ Hx. by apply elem_of_nil in Hx.
Qed.

Lemma NoDup_fst_eq {X} (l : list (nat * X)) x y :
  NoDup (map fst l) -> x ∈ l -> y ∈ l -> fst x = fst y -> x = y.
Proof.
  induction l as [|z l IH]; intros Hnd Hx Hy Hxy; [by apply elem_of_nil in Hx|].
  cbn [map] in Hnd. apply NoDup_cons in Hnd as [Hz Hnd].
  apply elem_of_cons in Hx as [->|Hx]; apply elem_of_cons in Hy as [->|Hy].
  - reflexivity.
  - exfalso. apply Hz. rewrite Hxy. by apply list_elem_of_fmap_2.
  - exfalso. apply Hz. rewrite <- Hxy. by apply list_elem_of_fmap_2.
  - by apply IH.
Qed.

Lemma NoDup_fst_filter {X} (P : nat * X -> Prop) `{!forall x, Decision (P x)}
    (l : list (nat * X)) :
  NoDup (map fst l) -> NoDup (map fst (filter P l)).
Proof.
  induction l as [|z l IH]; intros Hnd; [done|].
  cbn [map] in Hnd. apply NoDup_cons in Hnd as [Hz Hnd].
  destruct (decide (P z)).
  - rewrite filter_cons_True by done. cbn [map]. apply NoDup_cons. split; [|by apply IH].
    intros Hin. apply Hz. apply list_elem_of_fmap in Hin as (y & -> & Hy).
    apply list_elem_of_fmap_2. by apply list_elem_of_filter in Hy as [_ Hy].
  - rewrite filter_cons_False by done. by apply IH.
Qed.

Lemma filter_filter_implied {X} (P Q : X -> Prop)
    `{!forall x, Decision (P x)} `{!forall x, Decision (Q x)} (l : list X) :
  (forall y, y ∈ l -> P y -> Q y) -> filter P (filter Q l) = filter P l.
Proof.
  induction l as [|z l IH]; intros Himp; [done|].
  assert (Hl : forall y, y ∈ l -> P y -> Q y)
    by (intros y Hy; apply Himp; apply elem_of_cons; by right).
  destruct (decide (Q z)) as [Hq|Hq].
  - rewrite (filter_cons_True Q) by done.
    destruct (decide (P z)).
    + rewrite !filter_cons_True by done. f_equal. by apply IH.
    + rewrite !filter_cons_False by done. by apply IH.
  - rewrite (filter_cons_False Q) by done.
    rewrite filter_cons_False; [by apply IH|].
    intros Hp. apply Hq. apply Himp; [apply elem_of_cons; by left|done].
Qed.

Lemma elem_of_class_add token tok l :
  tok ∈ class_add token l <-> tok ∈ l \/ tok = token.
Proof.
  unfold class_add. case_bool_decide as H.
  - split; [by left|]. intros [?| ->]; done.
  - rewrite elem_of_app, list_elem_of_singleton. reflexivity.
Qed.

(** Firing a timer that belongs to another toast, or running its task, does
    not touch the timers of the toast [t]. *)
Lemma own_pending_fire_other t w id x :
  NoDup (map fst (page_timers w)) -> x ∈ page_timers w -> fst x = id ->
  task_toast (snd (snd x)) ≠ t ->
  filter (fun y => task_toast (snd (snd y)) = t)
    (filter (fun y => fst y ≠ id) (page_timers w)) = own_pending t w.
Proof.
  intros Hnd Hx Hid Hne. unfold own_pending. apply filter_filter_implied.
  intros y Hy Hown Heq. apply Hne.
  rewrite (NoDup_fst_eq _ x y Hnd Hx Hy) by congruence. exact Hown.
Qed.

Lemma filter_ext_in {X} (P Q : X -> Prop)
    `{!forall x, Decision (P x)} `{!forall x, Decision (Q x)} (l : list X) :
  (forall y, y ∈ l -> P y <-> Q y) -> filter P l = filter Q l.
Proof.
  induction l as [|z l IH]; intros Himp; [done|].
  assert (Hl : forall y, y ∈ l -> P y <-> Q y)
    by (intros y Hy; apply Himp; apply elem_of_cons; by right).
  assert (Hz : P z <-> Q z) by (apply Himp; apply elem_of_cons; by left).
  destruct (decide (P z)) as [Hp|Hp].
  - rewrite !filter_cons_True by tauto. f_equal. by apply IH.
  - rewrite !filter_cons_False by tauto. by apply IH.
Qed.

Lemma filter_swap {X} (P Q : X -> Prop)
    `{!forall x, Decision (P x)} `{!forall x, Decision (Q x)} (l : list X) :
  filter P (filter Q l) = filter Q (filter P l).
Proof.
  induction l as [|z l IH]; [done|].
  destruct (decide (P z)), (decide (Q z));
    rewrite ?(filter_cons_True P), ?(filter_cons_False P),
            ?(filter_cons_True Q), ?(filter_cons_False Q) by done;
    rewrite ?(filter_cons_True P), ?(filter_cons_False P),
            ?(filter_cons_True Q), ?(filter_cons_False Q) by done;
    by rewrite IH.
Qed.

Lemma own_pending_fire_own t w id x :
  NoDup (map fst (page_timers w)) -> x ∈ page_timers w -> fst x = id ->
  filter (fun y => task_toast (snd (snd y)) = t)
    (filter (fun y => fst y ≠ id) (page_timers w))
  = filter (fun y => y ≠ x) (own_pending t w).
Proof.
  intros Hnd Hx Hid. unfold own_pending. rewrite filter_swap. apply filter_ext_in.
  intros y Hy. apply list_elem_of_filter in Hy as [_ Hy]. split.
  - intros Hne ->. by apply Hne.
  - intros Hne Heq. apply Hne. apply (NoDup_fst_eq _ y x Hnd Hy Hx). congruence.
Qed.

Lemma filter_out_absent {X} `{EqDecision X} (x : X) (l : list X) :
  x ∉ l -> filter (fun y => y ≠ x) l = l.
Proof.
  induction l as [|z l IH]; intros Hx; [done|].
  apply not_elem_of_cons in Hx as [Hz Hx].
  rewrite filter_cons_True by congruence. f_equal. by apply IH.
Qed.

Lemma elem_of_own_pending t w x :
  x ∈ own_pending t w <-> task_toast (snd (snd x)) = t /\ x ∈ page_timers w.
Proof. unfold own_pending. by rewrite list_elem_of_filter. Qed.

Lemma timers_ok_take id due w : timers_ok w -> timers_ok (take_timer id due w).
Proof.
  intros [Hnd Hlt]. split; cbn [take_timer page_timers next_timer_id].
  - by apply NoDup_fst_filter.
  - intros x Hx. apply list_elem_of_filter in Hx as [_ Hx]. by apply Hlt.
Qed.

Lemma timers_ok_setTimeout k delay w : timers_ok w -> timers_ok (page_setTimeout k delay w).
Proof.
  intros [Hnd Hlt]. split; cbn [page_setTimeout page_timers next_timer_id].
  - rewrite map_app. cbn [map fst]. apply NoDup_app. repeat split; [done| |apply NoDup_singleton].
    intros i Hi Hi'. apply list_elem_of_singleton in Hi' as ->.
    apply list_elem_of_fmap in Hi as (y & Hy & Hin). specialize (Hlt y Hin). lia.
  - intros x Hx. apply elem_of_app in Hx as [Hx|Hx].
    + specialize (Hlt x Hx). lia.
    + apply list_elem_of_singleton in Hx as ->. cbn. lia.
Qed.

Lemma timers_ok_add_class token t w : timers_ok w -> timers_ok (toast_add_class token t w).
Proof. done. Qed.

Lemma timers_ok_run_task k w : timers_ok w -> timers_ok (run_task k w).
Proof.
  intros H. destruct k as [t|t|t]; cbn [run_task].
  - done.
  - unfold removeToast. by apply timers_ok_setTimeout.
  - by case_match.
Qed.

Lemma page_now_run_task k w : page_now (run_task k w) = page_now w.
Proof. destruct k as [t|t|t]; cbn [run_task]; [done|done|by case_match]. Qed.

(** Running the task of another toast leaves the toast [t] as it is. *)
Lemma run_task_other t k w :
  task_toast k ≠ t ->
  own_pending t (run_task k w) = own_pending t w /\
  (t ∈ children (run_task k w) <-> t ∈ children w) /\
  toasts (run_task k w) !! t = toasts w !! t.
Proof.
  intros Hne. destruct k as [t'|t'|t']; cbn [task_toast] in Hne; cbn [run_task].
  - repeat split; try done. cbn. by rewrite lookup_alter_ne.
  - repeat split; try done.
    + unfold own_pending, removeToast, page_setTimeout, toast_add_class.
      cbn [page_timers]. rewrite filter_app, filter_cons_False, filter_nil by done.
      by rewrite app_nil_r.
    + cbn. by rewrite lookup_alter_ne.
  - case_bool_decide as Hin; [|done]. repeat split; try done.
    + unfold children at 1. cbn [container default].
      intros H. by apply list_elem_of_filter in H as [_ H].
    + unfold children at 2. cbn [container default].
      intros H. apply list_elem_of_filter. split; [congruence|done].
Qed.

Lemma toast_state_other t init t0 D T w s h d id due k :
  toast_state t init t0 D T w s h d ->
  (id, (due, k)) ∈ page_timers w ->
  (forall y, y ∈ page_timers w -> (due <= fst (snd y))%Z) ->
  (due <= T)%Z ->
  task_toast k ≠ t ->
  toast_state t init t0 D T (run_task k (take_timer id due w)) s h d.
Proof.
  intros (Hok & HnowT & Hown & Hdue & Hatt & Hcls & Hdet & Hs & Hh & Hd3) Hin Hmin HdueT Hne.
  destruct (run_task_other t k (take_timer id due w) Hne) as (Ho & Hc & Ht).
  assert (Hown0 : own_pending t (take_timer id due w) = own_pending t w).
  { unfold own_pending at 1. cbn [take_timer page_timers].
    apply (own_pending_fire_other t w id (id, (due, k))); [apply Hok|done|done|done]. }
  unfold toast_state. rewrite page_now_run_task, Ho, Hown0, Hc, Ht.
  cbn [take_timer page_now].
  split; [by apply timers_ok_run_task, timers_ok_take|].
  split; [lia|]. split; [exact Hown|]. split.
  { intros e He. specialize (Hdue e He).
    rewrite <- Hown in He. apply list_elem_of_fmap in He as (y & -> & Hy).
    apply elem_of_own_pending in Hy as [_ Hy]. specialize (Hmin y Hy). lia. }
  split; [exact Hatt|]. split; [exact Hcls|]. split; [exact Hdet|].
  repeat split; intros H; [specialize (Hs H)|specialize (Hh H)|specialize (Hd3 H)]; lia.
Qed.

Lemma map_snd_filter_out {X Y} `{EqDecision X} `{EqDecision Y}
    (O : list (X * Y)) (x : X * Y) (A B : list Y) :
  x ∈ O -> map snd O = A ++ snd x :: B -> snd x ∉ A -> snd x ∉ B ->
  map snd (filter (fun y => y ≠ x) O) = A ++ B.
Proof.
  intros Hx Hmap HA HB.
  apply fmap_app_inv in Hmap as (OA & OB' & HOA & HOB & ->).
  destruct OB' as [|x' OB]; [discriminate HOB|].
  cbn [fmap list_fmap] in HOB. injection HOB as Hx' HOB.
  assert (HxA : x ∉ OA).
  { intros H. apply HA. rewrite HOA. by apply list_elem_of_fmap_2. }
  assert (HxB : x ∉ OB).
  { intros H. apply HB. rewrite HOB. by apply list_elem_of_fmap_2. }
  assert (x' = x) as ->.
  { apply elem_of_app in Hx as [Hx|Hx]; [done|].
    apply elem_of_cons in Hx as [Hx|Hx]; done. }
  rewrite filter_app, filter_cons_False by (intros H; by apply H).
  rewrite !filter_out_absent by done.
  rewrite map_app. by rewrite HOA, HOB.
Qed.

Lemma own_due_bounds t init t0 D T w s h d due e :
  toast_state t init t0 D T w s h d ->
  (forall y, y ∈ page_timers w -> (due <= fst (snd y))%Z) ->
  e ∈ own_timers t t0 D s h d ->
  (Z.max (page_now w) due <= fst e)%Z.
Proof.
  intros (_ & _ & Hown & Hdue & _) Hmin He. specialize (Hdue e He).
  rewrite <- Hown in He. apply list_elem_of_fmap in He as (y & -> & Hy).
  apply elem_of_own_pending in Hy as [_ Hy]. specialize (Hmin y Hy). lia.
Qed.

Lemma elem_of_own_timers t t0 D s h d e :
  e ∈ own_timers t t0 D s h d <->
  (s = false /\ e = ((t0 + 10)%Z, AddShow t)) \/
  (d = false /\ h = true /\ e = ((t0 + D + 300)%Z, Detach t)) \/
  (d = false /\ h = false /\ e = ((t0 + D)%Z, AutoRemove t)).
Proof.
  unfold own_timers. rewrite elem_of_app.
  destruct s, h, d; rewrite ?list_elem_of_singleton, ?elem_of_nil; naive_solver.
Qed.

Lemma toast_state_show t init t0 D T w s h d id due :
  toast_state t init t0 D T w s h d ->
  (id, (due, AddShow t)) ∈ page_timers w ->
  (forall y, y ∈ page_timers w -> (due <= fst (snd y))%Z) ->
  (due <= T)%Z ->
  toast_state t init t0 D T (run_task (AddShow t) (take_timer id due w)) true h d.
Proof.
  intros Hst Hin Hmin HdueT.
  pose proof Hst as (Hok & HnowT & Hown & Hdue & Hatt & (el & Hel & Hcls) & Hdet & Hs & Hh & Hd3).
  assert (Hx : (id, (due, AddShow t)) ∈ own_pending t w)
    by (by apply elem_of_own_pending).
  assert (He : (due, AddShow t) ∈ own_timers t t0 D s h d)
    by (rewrite <- Hown; by apply (list_elem_of_fmap_2 snd _ (id, (due, AddShow t)))).
  assert (s = false /\ due = (t0 + 10)%Z) as [-> ->].
  { apply elem_of_own_timers in He as [[-> He]|[(_ & _ & He)|(_ & _ & He)]]; by simplify_eq. }
  assert (Hd : d = false) by (destruct d; [by destruct Hdet|done]).
  assert (Hown1 : map snd (own_pending t (take_timer id (t0 + 10) w))
                  = own_timers t t0 D true h d).
  { unfold own_pending at 1. cbn [take_timer page_timers].
    rewrite (own_pending_fire_own t w id (id, ((t0 + 10)%Z, AddShow t)))
      by (first [apply Hok|done]).
    apply (map_snd_filter_out _ _ []); [done|exact Hown| |].
    - by intros H%elem_of_nil.
    - subst d. destruct h; cbn; intros H%list_elem_of_singleton; congruence. }
  unfold toast_state. cbn [run_task].
  split; [by apply timers_ok_add_class, timers_ok_take|].
  split; [cbn; lia|]. split; [exact Hown1|]. split.
  { intros e He'. cbn [toast_add_class take_timer page_now].
    apply (own_due_bounds t init t0 D T w false h d _ e Hst Hmin).
    apply elem_of_own_timers. apply elem_of_own_timers in He'. naive_solver. }
  split; [exact Hatt|]. split.
  { exists (mkToastEl (class_add (lit "show") (toast_classes el)) (toast_html el)).
    split; [cbn; by rewrite lookup_alter_eq, Hel|].
    intros tok. cbn [toast_classes]. rewrite elem_of_class_add, Hcls.
    split; [intros [[?|[[_ ?]|?]]| ->]; auto; done|].
    intros [?|[[-> _]|?]]; auto. }
  split; [by subst d|].
  cbn [toast_add_class take_timer page_now].
  repeat split; intros H; [|specialize (Hh H)|specialize (Hd3 H)]; lia.
Qed.

Lemma toast_state_hide t init t0 D T w s h d id due :
  toast_state t init t0 D T w s h d ->
  (id, (due, AutoRemove t)) ∈ page_timers w ->
  (forall y, y ∈ page_timers w -> (due <= fst (snd y))%Z) ->
  (due <= T)%Z ->
  toast_state t init t0 D T (run_task (AutoRemove t) (take_timer id due w)) s true false.
Proof.
  intros Hst Hin Hmin HdueT.
  pose proof Hst as (Hok & HnowT & Hown & Hdue & Hatt & (el & Hel & Hcls) & Hdet & Hs & Hh & Hd3).
  assert (Hx : (id, (due, AutoRemove t)) ∈ own_pending t w)
    by (by apply elem_of_own_pending).
  assert (He : (due, AutoRemove t) ∈ own_timers t t0 D s h d)
    by (rewrite <- Hown; by apply (list_elem_of_fmap_2 snd _ (id, (due, AutoRemove t)))).
  assert (d = false /\ h = false /\ due = (t0 + D)%Z) as (-> & -> & ->).
  { apply elem_of_own_timers in He as [[_ He]|[(_ & _ & He)|(? & ? & He)]]; by simplify_eq. }
  assert (Hnow : (page_now w <= t0 + D)%Z)
    by (apply (Hdue ((t0 + D)%Z, AutoRemove t)), elem_of_own_timers; naive_solver).
  assert (Hown1 : map snd (own_pending t (take_timer id (t0 + D) w))
                  = if s then [] else [((t0 + 10)%Z, AddShow t)]).
  { unfold own_pending at 1. cbn [take_timer page_timers].
    rewrite (own_pending_fire_own t w id (id, ((t0 + D)%Z, AutoRemove t)))
      by (first [apply Hok|done]).
    rewrite <- (app_nil_r (if s then _ else _)).
    apply map_snd_filter_out; [done|exact Hown| |].
    - destruct s; [by intros H%elem_of_nil|].
      intros H%list_elem_of_singleton; cbn in H; congruence.
    - by intros H%elem_of_nil. }
  unfold toast_state. cbn [run_task]. unfold removeToast.
  split; [by apply timers_ok_setTimeout, timers_ok_add_class, timers_ok_take|].
  split; [cbn; lia|]. split.
  { unfold own_pending, page_setTimeout. cbn [page_timers toast_add_class].
    rewrite filter_app, filter_cons_True, filter_nil by done.
    rewrite map_app. fold (own_pending t (take_timer id (t0 + D) w)). rewrite Hown1.
    unfold own_timers. cbn [map snd]. do 3 f_equal.
    cbn [toast_add_class take_timer page_now].
    change (timer_delay 300) with 300%Z. lia. }
  split.
  { intros e He'. cbn [page_setTimeout toast_add_class take_timer page_now].
    apply elem_of_own_timers in He' as [[-> ->]|[(_ & _ & ->)|(_ & ? & _)]]; [|cbn; lia|done].
    apply (own_due_bounds t init t0 D T w false false false _ _ Hst Hmin).
    apply elem_of_own_timers. naive_solver. }
  split; [exact Hatt|]. split.
  { exists (mkToastEl (class_add (lit "hide") (toast_classes el)) (toast_html el)).
    split; [cbn; by rewrite lookup_alter_eq, Hel|].
    intros tok. cbn [toast_classes]. rewrite elem_of_class_add, Hcls.
    split; [intros [[?|[?|[_ ?]]]| ->]; auto; done|].
    intros [?|[?|[-> _]]]; auto. }
  split; [done|].
  cbn [page_setTimeout toast_add_class take_timer page_now].
  repeat split; intros H; [specialize (Hs H)| |done]; lia.
Qed.

Lemma toast_state_detach t init t0 D T w s h d id due :
  (0 <= D)%Z ->
  toast_state t init t0 D T w s h d ->
  (id, (due, Detach t)) ∈ page_timers w ->
  (forall y, y ∈ page_timers w -> (due <= fst (snd y))%Z) ->
  (due <= T)%Z ->
  toast_state t init t0 D T (run_task (Detach t) (take_timer id due w)) true true true.
Proof.
  intros HD Hst Hin Hmin HdueT.
  pose proof Hst as (Hok & HnowT & Hown & Hdue & Hatt & (el & Hel & Hcls) & Hdet & Hs & Hh & Hd3).
  assert (Hx : (id, (due, Detach t)) ∈ own_pending t w)
    by (by apply elem_of_own_pending).
  assert (He : (due, Detach t) ∈ own_timers t t0 D s h d)
    by (rewrite <- Hown; by apply (list_elem_of_fmap_2 snd _ (id, (due, Detach t)))).
  assert (d = false /\ h = true /\ due = (t0 + D + 300)%Z) as (-> & -> & ->).
  { apply elem_of_own_timers in He as [[_ He]|[(? & ? & He)|(_ & _ & He)]]; by simplify_eq. }
  assert (s = true) as ->.
  { destruct s; [done|]. exfalso.
    assert (Ha : ((t0 + 10)%Z, AddShow t) ∈ map snd (own_pending t w))
      by (rewrite Hown; apply elem_of_own_timers; naive_solver).
    apply list_elem_of_fmap in Ha as (y & Hy & Hyin).
    apply elem_of_own_pending in Hyin as [_ Hyin]. specialize (Hmin y Hyin).
    rewrite <- Hy in Hmin. cbn in Hmin. lia. }
  assert (Hown1 : map snd (own_pending t (take_timer id (t0 + D + 300) w)) = []).
  { unfold own_pending at 1. cbn [take_timer page_timers].
    rewrite (own_pending_fire_own t w id (id, ((t0 + D + 300)%Z, Detach t)))
      by (first [apply Hok|done]).
    change (@nil (Z * task)) with (@nil (Z * task) ++ []).
    apply map_snd_filter_out; [done|exact Hown| |]; by intros H%elem_of_nil. }
  assert (Hc : t ∈ children (take_timer id (t0 + D + 300) w)) by (by apply Hatt).
  unfold toast_state. cbn [run_task]. rewrite bool_decide_eq_true_2 by exact Hc.
  split; [by apply timers_ok_take|].
  split; [cbn; lia|]. split; [exact Hown1|]. split; [by intros e H%elem_of_nil|].
  split.
  { unfold children at 1. cbn [container from_option Datatypes.id]. rewrite list_elem_of_filter. naive_solver. }
  split; [exists el; split; [exact Hel|exact Hcls]|].
  split; [done|]. cbn [take_timer page_now].
  specialize (Hs eq_refl). specialize (Hh eq_refl).
  repeat split; intros _; lia.
Qed.

(** Every step of the loop keeps the toast in one of its states. *)
Lemma toast_inv_step t init t0 D T w w' :
  (0 <= D)%Z -> toast_inv t init t0 D T w -> page_step T w = Some w' ->
  toast_inv t init t0 D T w'.
Proof.
  intros HD (s & h & d & Hst) Hstep. unfold page_step in Hstep.
  destruct (earliest_timer (page_timers w)) as [[id [due k]]|] eqn:He; [|discriminate].
  destruct (due <=? T)%Z eqn:Hle; [|discriminate]. injection Hstep as <-.
  apply Z.leb_le in Hle. apply earliest_timer_spec in He as [Hin Hmin].
  destruct (decide (task_toast k = t)) as [Hk|Hk].
  - destruct k as [t'|t'|t']; cbn [task_toast] in Hk; subst t'.
    + exists true, h, d. by apply (toast_state_show t init t0 D T w s h d id due).
    + exists s, true, false. by apply (toast_state_hide t init t0 D T w s h d id due).
    + exists true, true, true. by apply (toast_state_detach t init t0 D T w s h d id due).
  - exists s, h, d. by apply (toast_state_other t init t0 D T w s h d id due k).
Qed.

Lemma toast_inv_run t init t0 D T fuel w :
  (0 <= D)%Z -> toast_inv t init t0 D T w -> toast_inv t init t0 D T (page_run fuel T w).
Proof.
  intros HD. revert w. induction fuel as [|fuel IH]; intros w Hinv; [done|].
  cbn [page_run]. destruct (page_step T w) as [w'|] eqn:Hstep; [|done].
  apply IH. by apply (toast_inv_step t init t0 D T w w').
Qed.

Lemma filter_none {X} (P : X -> Prop) `{!forall x, Decision (P x)} (l : list X) :
  (forall x, x ∈ l -> ~ P x) -> filter P l = [].
Proof.
  induction l as [|z l IH]; intros Hno; [done|].
  rewrite filter_cons_False by (apply Hno, elem_of_cons; by left).
  apply IH. intros x Hx. apply Hno, elem_of_cons. by right.
Qed.

Lemma children_getOrCreate w :
  children (getOrCreateToastContainer w) = children w.
Proof.
  unfold getOrCreateToastContainer. destruct (container w) eqn:E; [done|].
  unfold children. cbn [container]. by rewrite E.
Qed.

(** Right after [showToast] the new toast is in the container with its two
    timers pending and the classes of its class name. *)
Lemma showToast_state message type duration w T :
  page_ok w -> (page_now w <= T)%Z ->
  toast_state (fst (showToast message type duration w))
    (toast_classes (createToastElement message type))
    (page_now w) (timer_delay duration) T
    (snd (showToast message type duration w)) false false false.
Proof.
  intros (Hok & Hfresh & Hkids) HT. unfold showToast. cbn [fst snd].
  set (w0 := getOrCreateToastContainer w).
  assert (E0 : page_now w0 = page_now w /\ page_timers w0 = page_timers w /\
               next_timer_id w0 = next_timer_id w /\ next_toast w0 = next_toast w /\
               toasts w0 = toasts w).
  { unfold w0, getOrCreateToastContainer. destruct (container w); repeat split; reflexivity. }
  destruct E0 as (En & Et & Ei & Ex & Eto).
  set (wa := mkPage _ _ _ _ _ _).
  assert (Hoka : timers_ok wa).
  { unfold wa. destruct Hok as [Hnd Hlt]. split; cbn; by rewrite ?Et, ?Ei. }
  unfold toast_state.
  split; [by apply timers_ok_setTimeout, timers_ok_setTimeout|].
  split; [cbn; lia|]. split.
  { unfold own_pending, page_setTimeout, wa. cbn [page_timers page_now next_timer_id].
    rewrite !filter_app, !filter_cons_True, !filter_nil by done.
    rewrite Et. replace (filter _ (page_timers w)) with (@nil (nat * (Z * task))).
    - unfold own_timers. cbn. rewrite En. reflexivity.
    - symmetry. apply filter_none. intros x Hx Heq.
      specialize (Hfresh x Hx). rewrite Ex in Heq. lia. }
  split.
  { intros e He. cbn [page_setTimeout wa page_now]. rewrite En.
    pose proof (timer_delay_nonneg duration).
    apply elem_of_own_timers in He as [[_ ->]|[(_ & ? & _)|(_ & _ & ->)]];
      [cbn [fst]; lia|done|cbn [fst]; lia]. }
  split.
  { split; [done|]. intros _. unfold children at 1. cbn [page_setTimeout wa container from_option id].
    apply elem_of_app. right. by apply list_elem_of_singleton. }
  split.
  { exists (createToastElement message type). split.
    - cbn [page_setTimeout wa toasts]. by rewrite lookup_insert_eq.
    - intros tok. naive_solver. }
  by repeat split.
Qed.

(** Pages stay well formed: timers get fresh ids and toasts are new
    elements. *)
Lemma page_ok_empty : page_ok empty_page.
Proof.
  repeat split; cbn; try apply NoDup_nil_2; intros x Hx; by apply elem_of_nil in Hx.
Qed.

Lemma page_ok_showToast message type duration w :
  page_ok w -> page_ok (snd (showToast message type duration w)).
Proof.
  intros (Hok & Hfresh & Hkids). unfold showToast. cbn [snd].
  set (w0 := getOrCreateToastContainer w).
  assert (E0 : page_timers w0 = page_timers w /\
               next_timer_id w0 = next_timer_id w /\ next_toast w0 = next_toast w).
  { unfold w0, getOrCreateToastContainer. destruct (container w); repeat split; reflexivity. }
  destruct E0 as (Et & Ei & Ex).
  set (wa := mkPage _ _ _ _ _ _).
  assert (Hoka : timers_ok wa).
  { unfold wa. destruct Hok as [Hnd Hlt]. split; cbn; by rewrite ?Et, ?Ei. }
  split; [by apply timers_ok_setTimeout, timers_ok_setTimeout|]. split.
  - intros x Hx. cbn [page_setTimeout wa page_timers next_toast] in *.
    rewrite Et in Hx. rewrite Ex.
    apply elem_of_app in Hx as [Hx|Hx]; [apply elem_of_app in Hx as [Hx|Hx]|].
    + specialize (Hfresh x Hx). lia.
    + apply list_elem_of_singleton in Hx as ->. cbn. lia.
    + apply list_elem_of_singleton in Hx as ->. cbn. lia.
  - intros c Hc. unfold children in Hc.
    cbn [page_setTimeout wa container from_option id next_toast] in *.
    rewrite Ex. apply elem_of_app in Hc as [Hc|Hc].
    + fold (children w0) in Hc. unfold w0 in Hc. rewrite children_getOrCreate in Hc.
      specialize (Hkids c Hc). lia.
    + apply list_elem_of_singleton in Hc as ->. lia.
Qed.

Lemma page_ok_step T w w' : page_ok w -> page_step T w = Some w' -> page_ok w'.
Proof.
  intros (Hok & Hfresh & Hkids) Hstep. unfold page_step in Hstep.
  destruct (earliest_timer (page_timers w)) as [[id [due k]]|] eqn:He; [|discriminate].
  destruct (due <=? T)%Z; [|discriminate]. injection Hstep as <-.
  apply earliest_timer_spec in He as [Hin _].
  pose proof (Hfresh _ Hin) as Hk. cbn [snd] in Hk.
  assert (Hsub : forall x, x ∈ page_timers (take_timer id due w) -> x ∈ page_timers w).
  { intros x Hx. cbn [take_timer page_timers] in Hx.
    by apply list_elem_of_filter in Hx as [_ Hx]. }
  split; [by apply timers_ok_run_task, timers_ok_take|].
  destruct k as [t|t|t]; cbn [run_task task_toast] in *.
  - split; [intros x Hx; apply Hfresh, Hsub, Hx|exact Hkids].
  - split; [|exact Hkids]. intros x Hx.
    unfold removeToast in *. cbn [page_setTimeout toast_add_class page_timers next_toast] in *.
    apply elem_of_app in Hx as [Hx|Hx]; [apply Hfresh, Hsub, Hx|].
    apply list_elem_of_singleton in Hx as ->. exact Hk.
  - case_bool_decide.
    + split; [intros x Hx; apply Hfresh, Hsub, Hx|]. intros c Hc. unfold children in Hc.
      cbn [container from_option Datatypes.id] in Hc.
      apply list_elem_of_filter in Hc as [_ Hc]. by apply Hkids.
    + split; [intros x Hx; apply Hfresh, Hsub, Hx|exact Hkids].
Qed.

Lemma page_ok_advance T w : page_ok w -> page_ok (page_advance T w).
Proof.
  intros Hok. unfold page_advance.
  assert (Hrun : forall fuel w0, page_ok w0 -> page_ok (page_run fuel T w0)).
  { induction fuel as [|fuel IH]; intros w0 H0; [done|]. cbn [page_run].
    destruct (page_step T w0) as [w1|] eqn:Hs; [|done]. apply IH.
    by apply (page_ok_step T w0 w1). }
  specialize (Hrun (page_weight w) w Hok). exact Hrun.
Qed.

(** X17: the life of a toast.  In a page whose timers fire at their time, with
    no click on the close button: [showToast] appends the new toast to the
    container; at any later time [T] the toast is still in the container
    exactly when [T] is before the time of the call plus the delay of the
    removal (the duration reduced to 32 bits, a negative one counting as 0)
    plus 300 ms, and its classes are those of
    its class name, plus show from 10 ms on and hide from that delay on,
    whatever other toasts the page holds; the page is then well formed
    again, so the same holds for the toasts to come. *)
Theorem showToast_lifetime message type duration w T :
  page_ok w -> (page_now w <= T)%Z ->
  let t := fst (showToast message type duration w) in
  let w1 := snd (showToast message type duration w) in
  let w2 := page_advance T w1 in
  let t0 := page_now w in
  let D := timer_delay duration in
  children w1 = children w ++ [t] /\
  (t ∈ children w2 <-> (T < t0 + D + 300)%Z) /\
  (exists el, toasts w2 !! t = Some el /\
     forall tok, tok ∈ toast_classes el <->
       tok ∈ class_tokens (lit "toast align-items-center text-white bg-" ++ type
                           ++ lit " border-0")
       \/ (tok = lit "show" /\ (t0 + 10 <= T)%Z)
       \/ (tok = lit "hide" /\ (t0 + D <= T)%Z)) /\
  page_ok w2.
Proof.
  intros Hok HT t w1 w2 t0 D.
  split.
  { unfold w1, showToast, t. cbn [snd fst page_setTimeout]. unfold children at 1.
    cbn [container from_option id]. by rewrite children_getOrCreate. }
  pose proof (showToast_state message type duration w T Hok HT) as Hst.
  fold t w1 t0 D in Hst.
  assert (HD : (0 <= D)%Z) by apply timer_delay_nonneg.
  assert (Hinv : toast_inv t (toast_classes (createToastElement message type)) t0 D T
                   (page_run (page_weight w1) T w1)).
  { apply toast_inv_run; [done|]. by exists false, false, false. }
  pose proof (page_run_done T (page_weight w1) w1 (le_n _)) as Hdone.
  set (wr := page_run (page_weight w1) T w1) in *.
  destruct Hinv as (s & h & d & _ & Hnow & Hown & _ & Hatt & (el & Hel & Hcls)
                    & Hdet & Hs & Hh & Hd3).
  assert (Hpend : forall e, e ∈ own_timers t t0 D s h d -> (T < fst e)%Z).
  { intros e He. rewrite <- Hown in He. apply list_elem_of_fmap in He as (y & -> & Hy).
    apply elem_of_own_pending in Hy as [_ Hy]. by apply (page_step_none T wr y). }
  assert (Es : s = true <-> (t0 + 10 <= T)%Z).
  { split; [intros H; specialize (Hs H); lia|]. intros Hle. destruct s; [done|].
    specialize (Hpend ((t0 + 10)%Z, AddShow t)). cbn [fst] in Hpend.
    rewrite elem_of_own_timers in Hpend. naive_solver lia. }
  assert (Eh : h = true <-> (t0 + D <= T)%Z).
  { split; [intros H; specialize (Hh H); lia|]. intros Hle. destruct h; [done|].
    destruct d; [naive_solver|].
    specialize (Hpend ((t0 + D)%Z, AutoRemove t)). cbn [fst] in Hpend.
    rewrite elem_of_own_timers in Hpend. naive_solver lia. }
  assert (Ed : d = false <-> (T < t0 + D + 300)%Z).
  { split.
    - intros ->. destruct h.
      + specialize (Hpend ((t0 + D + 300)%Z, Detach t)). cbn [fst] in Hpend.
        rewrite elem_of_own_timers in Hpend. naive_solver.
      + destruct (Z.le_gt_cases (t0 + D) T) as [Hle|Hgt]; [|lia].
        apply Eh in Hle. discriminate.
    - intros Hlt. destruct d; [|done]. specialize (Hd3 eq_refl). lia. }
  split.
  { change (children w2) with (children wr). by rewrite Hatt. }
  split; [|by apply page_ok_advance, page_ok_showToast].
  exists el. split; [exact Hel|].
  intros tok. rewrite Hcls, Es, Eh. reflexivity.
Qed.

Lemma showToast_lifetime_witness :
  let w1 := snd (showToast (lit "saved") default_type default_duration empty_page) in
  children w1 = [0%nat] /\
  (0%nat ∈ children (page_advance 0 w1) <-> (0 < 0 + timer_delay 5000 + 300)%Z) /\
  (0%nat ∈ children (page_advance 5300 w1) <-> (5300 < 0 + timer_delay 5000 + 300)%Z).
Proof.
  pose proof page_ok_empty as Hok.
  split; [|split].
  - apply (showToast_lifetime (lit "saved") default_type default_duration empty_page 0 Hok).
    cbn. lia.
  - destruct (showToast_lifetime (lit "saved") default_type default_duration empty_page 0 Hok)
      as (_ & H & _); [cbn; lia|exact H].
  - destruct (showToast_lifetime (lit "saved") default_type default_duration empty_page 5300 Hok)
      as (_ & H & _); [cbn; lia|exact H].
Defined.

(** ** Image upload *)

Lemma validateImageFile_accepted f :
  accepted f -> validateImageFile (Some f) = Normal (VResult true msg_file_ok).
Proof.
  intros [Hty Hsz]. unfold validateImageFile.
  apply includes_elem in Hty. rewrite Hty. cbn [negb].
  destruct (N.ltb_spec config.maxFileSize (file_size f)); [lia|reflexivity].
Qed.

Lemma validateImageFile_rejected f :
  ~ accepted f ->
  exists m, validateImageFile (Some f) = Normal (VResult false m) /\
    (m = msg_bad_type \/ m = msg_too_big (lit "16 MB")).
Proof.
  intros Hno. unfold validateImageFile.
  destruct (includes config.allowedImageTypes (file_type f)) eqn:Hty; cbn [negb].
  - destruct (N.ltb_spec config.maxFileSize (file_size f)) as [Hsz|Hsz].
    + rewrite formatBytes_maxFileSize. cbn [cbind]. eexists. split; [reflexivity|by right].
    + exfalso. apply Hno. split; [by apply includes_elem|exact Hsz].
  - eexists. split; [reflexivity|by left].
Qed.

Lemma accepted_dec f : accepted f \/ ~ accepted f.
Proof.
  unfold accepted.
  destruct (includes config.allowedImageTypes (file_type f)) eqn:Hty.
  - apply includes_elem in Hty.
    destruct (N.le_gt_cases (file_size f) config.maxFileSize); [by left|right].
    intros [_ ?]. lia.
  - right. intros [Hin _]. apply includes_elem in Hin. congruence.
Qed.

(** X18: the change listener of an image input never throws.  With nothing
    selected it clears the preview and that is all.  A file of an allowed
    type and size only starts a read: the preview and the page stay as they
    are.  Any other file empties the selection, clears the preview, starts no
    read and appends exactly one toast to the toast container: the toast
    that createToastElement makes of the message that validateImageFile
    gives for this file, the type message or the size message, and of the
    kind danger. *)
Theorem setupImageUpload_change (file : option File) (u : Upload) :
  exists u', upload_step (Select file) u = Normal u' /\
    input_id u' = input_id u /\ container_id u' = container_id u /\
    match file with
    | None =>
        selection u' = None /\ preview_html u' = [] /\
        preview_display u' = lit "none" /\ readers u' = readers u /\
        upload_page u' = upload_page u
    | Some f =>
        (accepted f ->
           selection u' = Some f /\ preview_html u' = preview_html u /\
           preview_display u' = preview_display u /\ readers u' = readers u ++ [f] /\
           upload_page u' = upload_page u) /\
        (~ accepted f ->
           selection u' = None /\ preview_html u' = [] /\
           preview_display u' = lit "none" /\ readers u' = readers u /\
           children (upload_page u')
             = children (upload_page u)
               ++ [next_toast (getOrCreateToastContainer (upload_page u))] /\
           exists r,
             validateImageFile (Some f) = Normal r /\ valid r = false /\
             (message r = msg_bad_type \/ message r = msg_too_big (lit "16 MB")) /\
             toasts (upload_page u')
               !! next_toast (getOrCreateToastContainer (upload_page u))
             = Some (createToastElement (message r) (lit "danger")) /\
             lit "bg-danger" ∈ toast_classes (createToastElement (message r) (lit "danger")))
    end.
Proof.
  cbn [upload_step]. unfold on_change. cbn [selection input_id container_id preview_html
    preview_display readers upload_page].
  destruct file as [f|].
  2:{ eexists. split; [reflexivity|]. by repeat split. }
  destruct (accepted_dec f) as [Hacc|Hno].
  - rewrite (validateImageFile_accepted f Hacc). cbn [cbind valid negb].
    eexists. split; [reflexivity|]. repeat split; done.
  - destruct (validateImageFile_rejected f Hno) as (m & Hv & Hm). rewrite Hv.
    cbn [cbind valid negb message].
    eexists. split; [reflexivity|]. split; [done|]. split; [done|].
    split; [done|]. intros _. repeat split.
    + unfold showToast. cbn [snd page_setTimeout]. unfold children at 1.
      cbn [container from_option id]. by rewrite children_getOrCreate.
    + exists (VResult false m). cbn [valid message].
      split; [reflexivity|]. split; [reflexivity|]. split; [exact Hm|]. split.
      * unfold clearImagePreview, showToast.
        cbn [upload_page snd page_setTimeout toasts]. by rewrite lookup_insert_eq.
      * apply (bool_decide_unpack _). vm_compute. exact I.
Qed.

Lemma upload_step_readers e u :
  exists u', upload_step e u = Normal u' /\
    (readers u' = readers u \/
     (exists f, accepted f /\ readers u' = readers u ++ [f]) \/
     (exists i, readers u' = delete i (readers u))).
Proof.
  destruct e as [[f|]|i result]; cbn [upload_step]; unfold on_change;
    cbn [selection readers].
  - destruct (accepted_dec f) as [Hacc|Hno].
    + rewrite (validateImageFile_accepted f Hacc). cbn [cbind valid negb].
      eexists. split; [reflexivity|]. right. left. by exists f.
    + destruct (validateImageFile_rejected f Hno) as (m & -> & _).
      cbn [cbind valid negb]. eexists. split; [reflexivity|]. by left.
  - eexists. split; [reflexivity|]. by left.
  - eexists. split; [reflexivity|]. unfold reader_onload.
    destruct (readers u !! i); [|by left]. right. right. by exists i.
Qed.

Lemma Forall_list_delete {X} (P : X -> Prop) (l : list X) (i : nat) :
  Forall P l -> Forall P (delete i l).
Proof.
  intros Hl. revert i. induction Hl as [|x l Hx Hl IH]; intros [|i]; cbn.
  - constructor.
  - constructor.
  - exact Hl.
  - constructor; [exact Hx|apply IH].
Qed.

Lemma delete_last {X} (l : list X) (x : X) : delete (length l) (l ++ [x]) = l.
Proof.
  induction l as [|y l IH]; [done|]. cbn [length app].
  change (delete (S (length l)) (y :: l ++ [x])) with (y :: delete (length l) (l ++ [x])).
  by rewrite IH.
Qed.

(** X19: only files that pass validateImageFile are ever read: whatever the
    user selects and whenever the readers finish, no listener throws and
    every file being read has an allowed type and size. *)
Theorem setupImageUpload_reads_accepted (es : list upload_event) : forall u : Upload,
  Forall accepted (readers u) ->
  exists u', upload_run es u = Normal u' /\ Forall accepted (readers u').
Proof.
  induction es as [|e es IH]; intros u Hu; [by exists u|].
  cbn [upload_run].
  destruct (upload_step_readers e u) as (u1 & -> & Hr). cbn [cbind].
  apply IH. destruct Hr as [->|[(f & Hf & ->)|(i & ->)]].
  - exact Hu.
  - apply Forall_app. split; [exact Hu|by constructor].
  - by apply Forall_list_delete.
Qed.

Lemma setupImageUpload_reads_accepted_witness :
  exists u',
    upload_run [Select (Some (mkFile (lit "text/plain") 10));
                Select (Some (mkFile (lit "image/png") 10)); Load 0 (lit "data:,")]
      (mkUpload None (lit "photo") (lit "preview") [] [] [] empty_page) = Normal u' /\
    Forall accepted (readers u').
Proof.
  apply (setupImageUpload_reads_accepted _
           (mkUpload None (lit "photo") (lit "preview") [] [] [] empty_page)).
  cbn [readers]. constructor.
Defined.

(** X20: a preview can outlive its file.  When a file that passes the
    validation is selected and, before its reader has finished, the
    selection changes to nothing or to a file that is refused, the preview is
    cleared and then put back by the load event of the first file: in the
    end the preview of the first file is displayed while the input has no
    file. *)
Theorem setupImageUpload_stale_preview (u : Upload) (a : File) (b : option File)
    (result : jsstring) :
  accepted a -> (forall f, b = Some f -> ~ accepted f) ->
  exists u', upload_run [Select (Some a); Select b; Load (length (readers u)) result] u
             = Normal u' /\
    selection u' = None /\
    preview_display u' = lit "block" /\
    preview_html u' = preview_markup result (input_id u) (container_id u) /\
    readers u' = readers u.
Proof.
  intros Ha Hb. cbn [upload_run upload_step]. unfold on_change at 1. cbn [selection].
  rewrite (validateImageFile_accepted a Ha). cbn [cbind valid negb].
  unfold on_change, showImagePreview.
  cbn [selection input_id container_id preview_html preview_display readers upload_page].
  assert (Hlast : forall f : File, (readers u ++ [f]) !! length (readers u) = Some f)
    by (intros f; by rewrite list_lookup_middle).
  assert (Hdel : forall f : File, delete (length (readers u)) (readers u ++ [f]) = readers u)
    by (intros f; apply delete_last).
  destruct b as [f|].
  - destruct (validateImageFile_rejected f (Hb f eq_refl)) as (m & -> & _).
    cbn [cbind valid negb]. eexists. split; [reflexivity|].
    unfold reader_onload, clearImagePreview.
    cbn [selection input_id container_id preview_html preview_display readers upload_page].
    rewrite Hlast. cbn [selection input_id container_id preview_html preview_display readers].
    by rewrite Hdel.
  - cbn [cbind]. eexists. split; [reflexivity|].
    unfold reader_onload, clearImagePreview.
    cbn [selection input_id container_id preview_html preview_display readers upload_page].
    rewrite Hlast. cbn [selection input_id container_id preview_html preview_display readers].
    by rewrite Hdel.
Qed.

Lemma setupImageUpload_stale_preview_witness :
  exists u',
    upload_run [Select (Some (mkFile (lit "image/png") 10));
                Select (Some (mkFile (lit "text/plain") 10)); Load 0 (lit "data:,")]
      (mkUpload None (lit "photo") (lit "preview") [] [] [] empty_page) = Normal u' /\
    selection u' = None /\
    preview_display u' = lit "block" /\
    preview_html u' = preview_markup (lit "data:,") (lit "photo") (lit "preview") /\
    readers u' = [].
Proof.
  apply (setupImageUpload_stale_preview
           (mkUpload None (lit "photo") (lit "preview") [] [] [] empty_page)
           (mkFile (lit "image/png") 10) (Some (mkFile (lit "text/plain") 10)) (lit "data:,")).
  - split; [apply (bool_decide_unpack _); vm_compute; exact I|vm_compute; discriminate].
  - intros f [= <-] [Hty _]. revert Hty. apply (bool_decide_unpack _). vm_compute. exact I.
Defined.

(** ** The submit listeners together *)

(** X21: a form with the attribute data-loading puts its submit button into
    the loading state on every submit event, whatever the validation does:
    also when it fails and the submission is prevented, the button being
    then left disabled with the spinner although nothing is sent, and also
    when it throws.  The submission is prevented exactly when validateForm
    returns false or something had prevented it before; the fields are left
    as validateForm leaves them. *)
Theorem submit_loading_despite_invalid (reparse : jsstring -> jsstring)
    (pf : PageForm) (e : SubmitEvent) (b : Button) :
  data_loading pf = true -> submitBtn pf = Some b ->
  let e' := fst (submit_listeners reparse pf e) in
  let pf' := snd (submit_listeners reparse pf e) in
  (exists b', submitBtn pf' = Some b' /\
     disabled b' = true /\
     innerHTML b' = reparse (spinner_markup ++ msg_processing) /\
     attributes b' !! "data-original-text" = Some (innerHTML b)) /\
  (defaultPrevented e' = true <->
     fst (validateForm (pf_form pf)) = Normal false \/ defaultPrevented e = true) /\
  ((forall ff, ff ∈ form_fields (pf_form pf) -> ~ field_throws ff) ->
   (exists ff, ff ∈ form_fields (pf_form pf) /\ passes ff = false) ->
     defaultPrevented e' = true /\ propagationStopped e' = true) /\
  pf_form pf' = snd (validateForm (pf_form pf)).
Proof.
  intros Hl Hb. unfold submit_listeners, on_submit. rewrite Hl, Hb.
  assert (Hbtn : exists b', Some (setButtonLoading reparse b true msg_processing) = Some b' /\
            disabled b' = true /\
            innerHTML b' = reparse (spinner_markup ++ msg_processing) /\
            attributes b' !! "data-original-text" = Some (innerHTML b)).
  { eexists. split; [reflexivity|]. unfold setButtonLoading.
    cbn [disabled innerHTML attributes]. by rewrite lookup_insert_eq. }
  assert (Hall : (forall ff, ff ∈ form_fields (pf_form pf) -> ~ field_throws ff) ->
                 fst (validateForm (pf_form pf))
                 = Normal (forallb passes (form_fields (pf_form pf)))).
  { intros Hno. by rewrite (validateForm_all _ Hno). }
  destruct (validateForm (pf_form pf)) as [[ok|e0] form'];
    cbn [fst snd] in *; [destruct ok|];
    cbn [negb fst snd submitBtn pf_form defaultPrevented propagationStopped].
  - split; [exact Hbtn|]. split; [|split; [|done]].
    + split; [by right|]. by intros [?|?].
    + intros Hno (ff & Hin & Hff). specialize (Hall Hno). injection Hall as Hall.
      symmetry in Hall. rewrite forallb_forall in Hall.
      rewrite (Hall ff) in Hff; [discriminate|]. by apply list_elem_of_In.
  - split; [exact Hbtn|]. split; [|split; [|done]].
    + split; [by left|done].
    + done.
  - split; [exact Hbtn|]. split; [|split; [|done]].
    + split; [by right|]. by intros [?|?].
    + intros Hno _. specialize (Hall Hno). discriminate Hall.
Qed.

Lemma submit_loading_despite_invalid_witness :
  let field := mkFormField [] (lit "text") (list_to_map [("required", [])]) ∅ 0 in
  let pf := mkPageForm (mkForm [field] ∅) true (Some (mkButton (lit "Enviar") ∅ false)) in
  defaultPrevented (fst (submit_listeners (fun s => s) pf (mkSubmitEvent false false)))
  = true /\
  exists b',
    submitBtn (snd (submit_listeners (fun s => s) pf (mkSubmitEvent false false)))
    = Some b' /\ disabled b' = true.
Proof.
  intros field pf.
  destruct (submit_loading_despite_invalid (fun s => s) pf (mkSubmitEvent false false)
              (mkButton (lit "Enviar") ∅ false) eq_refl eq_refl)
    as ((b' & Hb' & Hdis & _) & _ & Hinv & _).
  split.
  - apply Hinv.
    + intros ff Hff%list_elem_of_singleton (k & Hk & _). subst ff.
      vm_compute in Hk. discriminate Hk.
    + exists field. split; [by apply list_elem_of_singleton|]. vm_compute. reflexivity.
  - by exists b'.
Defined.
(** ** The model on some inputs *)

Example escapeHtml_markup :
  escapeHtml (lit "<a href='x'>T&C</a>")
  = lit "&lt;a href=&#039;x&#039;&gt;T&amp;C&lt;/a&gt;".
Proof. vm_compute. reflexivity. Qed.

Example formatBytes_samples :
  formatBytes 1023 default_decimals = Normal (lit "1023 Bytes") /\
  formatBytes 1536 default_decimals = Normal (lit "1.5 KB") /\
  formatBytes 1234567 default_decimals = Normal (lit "1.18 MB") /\
  formatBytes 1048575 default_decimals = Normal (lit "1024 KB") /\
  formatBytes (1024 ^ 3) default_decimals = Normal (lit "1 GB") /\
  formatBytes 1234567 5 = Normal (lit "1.17737 MB") /\
  formatBytes 1025 (-3) = Normal (lit "1 KB") /\
  formatBytes 1025 101 = Throw RangeError.
Proof. vm_compute. repeat split. Qed.

Example parseInt_samples :
  parseInt (lit " -12px") = Some (-12)%Z /\
  parseInt (lit "0x1F") = Some 31%Z /\
  parseInt (lit "abc") = None /\
  parseInt [] = None.
Proof. vm_compute. repeat split. Qed.

Example email_samples :
  run_rules (mkField (lit " a@b.co ") (lit "email") ∅ ∅ None) = Normal (true, []) /\
  run_rules (mkField (lit "a@b") (lit "email") ∅ ∅ None) = Normal (false, msg_email) /\
  run_rules (mkField (lit "a b@c.d") (lit "email") ∅ ∅ None) = Normal (false, msg_email) /\
  run_rules (mkField [] (lit "email") ∅ ∅ None) = Normal (true, []).
Proof. vm_compute. repeat split. Qed.

Example last_failing_rule_wins :
  run_rules (mkField (lit "a@b") (lit "email") {["minlength" := lit "5"]} ∅ None)
  = Normal (false, msg_min (lit "5")).
Proof. vm_compute. reflexivity. Qed.

Example username_samples :
  customValidations.username (lit "ana_01") = VResult true customValidations.msg_username /\
  valid (customValidations.username (lit "ana maria")) = false /\
  valid (customValidations.username []) = false.
Proof. vm_compute. repeat split. Qed.

Example inherited_kinds :
  outcome (text_field (lit "ana") [("data-validate", lit "constructor")])
  = Normal (false, []) /\
  outcome (text_field (lit "ana") [("data-validate", lit "valueOf")])
  = Throw TypeError /\
  outcome (text_field (lit "ana") [("data-validate", lit "other")])
  = Normal (true, []).
Proof. vm_compute. repeat split. Qed.

Example setButtonLoading_round_trip (reparse : jsstring -> jsstring) :
  setButtonLoading reparse
    (setButtonLoading reparse (mkButton (lit "Salvar") ∅ false) true
       (lit "Processando..."))
    false default_loadingText
  = mkButton (reparse (lit "Salvar")) ∅ false.
Proof. reflexivity. Qed.

Example timer_delay_samples :
  timer_delay 300 = 300%Z /\ timer_delay (-5) = 0%Z /\
  timer_delay (2 ^ 31 - 1) = (2 ^ 31 - 1)%Z /\ timer_delay (2 ^ 31) = 0%Z /\
  timer_delay (2 ^ 32 + 300) = 300%Z.
Proof. vm_compute. repeat split. Qed.

Example debounce_two_bursts :
  fired (simulate 300 [(0, 1%nat); (50, 2%nat); (500, 3%nat)] 1000)%Z
  = [(350%Z, 2%nat); (800%Z, 3%nat)].
Proof. vm_compute. reflexivity. Qed.

Example click_after_removal :
  in_body (interact [] [] [] (Some true) (Some false) [Dismiss; TransitionEnd]) = false /\
  invoked (interact [] [] [] (Some true) (Some false)
             [Dismiss; TransitionEnd; ClickConfirm]) = [true].
Proof. split; reflexivity. Qed.
